(** * The Gitpod local-companion coordinator of [extensions/gitpod/src/extension.ts]

    A shallow embedding of the lock protocol ([releaseStaleLocks], [withLock]),
    of the installation and process management ([downloadLocalApp],
    [installLocalApp], [startLocalApp], [ensureLocalApp]) and of the retry
    loop [withLocalApp], followed by the properties proved about them.

    Asynchronous code is written in a state-and-exception monad over a
    [World]; every [await] on real I/O is a suspension point at which the
    environment (other tasks of the extension host, other windows, the
    operating system) acts on the world. *)

From Stdlib Require Import ZArith String Ascii List Bool Lia DecimalString DecimalNat DecimalZ.
From stdpp Require Import gmap strings list fin_maps.

Local Open Scope string_scope.
Local Open Scope Z_scope.

(** ** Data model *)

(** [interface LocalAppConfig] *)
Record LocalAppConfig := mkConfig {
  gitpodHost : string;
  configFile : string;
  apiPort : Z;
  pid : Z;
  logPath : string
}.

(** [interface Lock] *)
Record Lock := mkLock {
  value : string;
  deadline : Z
}.

(** [interface LocalAppInstallation]; [etag] is [string | null]. *)
Record LocalAppInstallation := mkInstallation {
  path : string;
  etag : option string
}.

(** A JavaScript primitive that is not [null] or [undefined]. *)
Inductive Primitive :=
| PBool (b : bool)
| PNumber (n : Z)
| PString (s : string).

(** What a key of [context.globalState] can hold: the three records the
    program writes, and a primitive, which is what the sweep guards
    against with [typeof].  [update(key, undefined)] removes the key, so
    [undefined] is the absence of a binding; [null] is written nowhere
    and is left out. *)
Inductive Stored :=
| SLock (l : Lock)
| SConfig (c : LocalAppConfig)
| SInstallation (i : LocalAppInstallation)
| SPrimitive (p : Primitive).

#[global] Instance LocalAppConfig_eq_dec : EqDecision LocalAppConfig.
Proof. solve_decision. Defined.
#[global] Instance Lock_eq_dec : EqDecision Lock.
Proof. solve_decision. Defined.
#[global] Instance LocalAppInstallation_eq_dec : EqDecision LocalAppInstallation.
Proof. solve_decision. Defined.
#[global] Instance Primitive_eq_dec : EqDecision Primitive.
Proof. solve_decision. Defined.
#[global] Instance Stored_eq_dec : EqDecision Stored.
Proof. solve_decision. Defined.

(** [typeof v === 'object'] *)
Definition isObject (v : option Stored) : bool :=
  match v with
  | Some (SLock _) | Some (SConfig _) | Some (SInstallation _) => true
  | Some (SPrimitive _) | None => false
  end.

(** Truthiness, as tested by [!v] and [if (v)]. *)
Definition truthyPrimitive (p : Primitive) : bool :=
  match p with
  | PBool b => b
  | PNumber n => negb (Z.eqb n 0)
  | PString s => negb (String.eqb s "")
  end.

Definition truthy (v : option Stored) : bool :=
  match v with
  | None => false
  | Some (SPrimitive p) => truthyPrimitive p
  | Some _ => true
  end.

(** [lock?.value], the holder token of what is read as a [Lock]. *)
Definition lockValue (v : option Stored) : option string :=
  match v with
  | Some (SLock l) => Some (value l)
  | _ => None
  end.

(** [lock.deadline] read from an object; [None] is [undefined]. *)
Definition lockDeadline (v : option Stored) : option Z :=
  match v with
  | Some (SLock l) => Some (deadline l)
  | _ => None
  end.

(** [get<LocalAppConfig>(key)] and [get<LocalAppInstallation>(key)]: the
    store is read at the type the code asserts; nothing but line 279 and
    line 275 writes under these keys, and a value of another shape is
    read as none. *)
Definition asConfig (v : option Stored) : option LocalAppConfig :=
  match v with
  | Some (SConfig c) => Some c
  | _ => None
  end.

Definition asInstallation (v : option Stored) : option LocalAppInstallation :=
  match v with
  | Some (SInstallation i) => Some i
  | _ => None
  end.

(** [grpc.Code] of [@improbable-eng/grpc-web]. *)
Inductive GrpcCode :=
| OK | Canceled | Unknown | InvalidArgument | DeadlineExceeded | NotFound
| AlreadyExists | PermissionDenied | ResourceExhausted | FailedPrecondition
| Aborted | OutOfRange | Unimplemented | Internal | Unavailable | DataLoss
| Unauthenticated.

#[global] Instance GrpcCode_eq_dec : EqDecision GrpcCode.
Proof. solve_decision. Defined.

(** A thrown value: its message and, for a gRPC service error, its [code]. *)
Record JsError := mkError {
  message : string;
  code : option GrpcCode
}.

#[global] Instance JsError_eq_dec : EqDecision JsError.
Proof. solve_decision. Defined.

(** [new Error(msg)] *)
Definition Error (msg : string) : JsError := mkError msg None.

Inductive Platform := Win32 | Darwin | OtherPlatform.

Inductive Signal := SIGTERM | Signal0.

(** The [Response] of [node-fetch], as far as the code reads it. *)
Record Response := mkResponse {
  ok : bool;
  status : Z;
  statusText : string;
  headerEtag : option string;
  url : string
}.

(** How the spawned process is first heard of. *)
Inductive SpawnOutcome :=
| SpawnError (e : JsError)
| SpawnExit (exitCode : option Z)
| SpawnAlive (p : Z).

(** Lines written to the output channel. *)
Inductive LogLine :=
| CancelStaleLock (lockName : string)
| AcquiringLock (lockName : string)
| AcquiredLock (lockName : string)
| ReleasedLock (lockName : string)
| FetchingFrom (uri : string)
| InstallingTo (installationPath : string)
| Installed (i : LocalAppInstallation)
| InstallFailed (e : JsError)
| Starting (host file : string) (port : Z)
| Started (p : Z) (log : string)
| StartFailed (e : JsError)
| Outdated (i : LocalAppInstallation) (newEtag : option string) (from : string)
| KillFailed (p : Z) (e : JsError)
| ApiNotReady (p : Z) (e : JsError)
| RetryingAfterDelay
| AccessFailed (e : JsError)
| NotRunning (p : Z) (e : JsError)
| Restarting.

(** What the program does to the outside, latest first in [events]. *)
Inductive Event :=
| EvOutput (l : LogLine)
| EvUpdate (key : string) (v : option Stored)
| EvSleep (ms : Z)
| EvFetch (uri : string)
| EvTmpFile (filePrefix : string) (postfix : option string)
| EvPipeline (target : string)
| EvChmod (target : string)
| EvAccess (target : string)
| EvListen
| EvOpenLog (target : string)
| EvSpawn (binary host file : string) (port : Z)
| EvKill (p : Z) (s : Signal).

(** ** The world and its environment *)

Record World := mkWorld {
  globalState : gmap string Stored;
  clock : Z;                        (* performance.now(), in ms *)
  lockCount : nat;
  tokenSources : nat;               (* CancellationTokenSources created *)
  cancelledTokens : gset nat;
  watch : option (string * string * nat);
                                    (* the interval timer of a held lock:
                                       key, holder token, cancellation token *)
  events : list Event;
  ticks : nat                       (* suspension points passed *)
}.

(** Everything the code does not decide: the host it runs on and, at each
    suspension point [n], what the rest of the system did meanwhile. *)
Record Env := mkEnv {
  sessionId : string;               (* vscode.env.sessionId *)
  platform : Platform;              (* process.platform *)
  uriAuthority : string -> string;  (* Uri.parse(h).authority *)
  uriWithPath : string -> string -> string;
                                    (* Uri.parse(h).with({path}).toString() *)
  interfere : nat -> gmap string Stored -> gmap string Stored;
  elapsed : nat -> N;
  timerRuns : nat -> bool;          (* did the 150 ms interval fire *)
  fetchResult : nat -> string -> JsError + Response;
  tmpFileResult : nat -> JsError + string;
  pipelineResult : nat -> option JsError;
  chmodResult : nat -> option JsError;
  accessResult : nat -> string -> bool;
  listenPort : nat -> Z;
  openLogResult : nat -> option JsError;
  spawnResult : nat -> string -> SpawnOutcome;
  killResult : nat -> Z -> Signal -> option JsError
}.

Definition setStore (s : gmap string Stored) (w : World) : World :=
  mkWorld s (clock w) (lockCount w) (tokenSources w) (cancelledTokens w)
          (watch w) (events w) (ticks w).

Definition setWatch (t : option (string * string * nat)) (w : World) : World :=
  mkWorld (globalState w) (clock w) (lockCount w) (tokenSources w)
          (cancelledTokens w) t (events w) (ticks w).

Definition addEvent (e : Event) (w : World) : World :=
  mkWorld (globalState w) (clock w) (lockCount w) (tokenSources w)
          (cancelledTokens w) (watch w) (e :: events w) (ticks w).

Definition advance (ms : Z) (w : World) : World :=
  mkWorld (globalState w) (clock w + ms) (lockCount w) (tokenSources w)
          (cancelledTokens w) (watch w) (events w) (ticks w).

Definition cancelToken (t : nat) (w : World) : World :=
  mkWorld (globalState w) (clock w) (lockCount w) (tokenSources w)
          ({[ t ]} ∪ cancelledTokens w) (watch w) (events w) (ticks w).

(** ** The monad *)

Inductive Outcome (A : Type) :=
| Returned (a : A)
| Thrown (e : JsError)
| Diverged.                         (* a loop that was not seen to end *)
Arguments Returned {A} a.
Arguments Thrown {A} e.
Arguments Diverged {A}.

Definition M (A : Type) : Type := World -> Outcome A * World.

Definition ret {A} (a : A) : M A := fun w => (Returned a, w).

Definition throw {A} (e : JsError) : M A := fun w => (Thrown e, w).

Definition diverge {A} : M A := fun w => (Diverged, w).

Definition bind {A B} (m : M A) (k : A -> M B) : M B :=
  fun w =>
    match m w with
    | (Returned a, w') => k a w'
    | (Thrown e, w') => (Thrown e, w')
    | (Diverged, w') => (Diverged, w')
    end.

(** [try { m } catch (e) { h e }] *)
Definition tryCatch {A} (m : M A) (h : JsError -> M A) : M A :=
  fun w =>
    match m w with
    | (Thrown e, w') => h e w'
    | r => r
    end.

(** [try { m } finally { f }] *)
Definition tryFinally {A} (m : M A) (f : M unit) : M A :=
  fun w =>
    match m w with
    | (Diverged, w') => (Diverged, w')
    | (r, w') =>
        match f w' with
        | (Returned _, w'') => (r, w'')
        | (Thrown e, w'') => (Thrown e, w'')
        | (Diverged, w'') => (Diverged, w'')
        end
    end.

Declare Scope js_scope.
Delimit Scope js_scope with js.
Notation "x <- m ;; k" := (bind m (fun x => k))
  (at level 100, m at next level, k at level 200, right associativity) : js_scope.
Notation "m ;;; k" := (bind m (fun _ => k))
  (at level 100, k at level 200, right associativity) : js_scope.
Local Open Scope js_scope.

Definition modify (f : World -> World) : M unit := fun w => (Returned tt, f w).

Definition emit (e : Event) : M unit := modify (addEvent e).

(** [output.appendLine(...)] *)
Definition appendLine (l : LogLine) : M unit := emit (EvOutput l).

(** [performance.now()] *)
Definition performanceNow : M Z := fun w => (Returned (clock w), w).

(** [context.globalState.get(key)] *)
Definition stateGet (key : string) : M (option Stored) :=
  fun w => (Returned (globalState w !! key), w).

(** The synchronous part of [context.globalState.update(key, v)]. *)
Definition stateUpdate (key : string) (v : option Stored) : M unit :=
  modify (fun w =>
    addEvent (EvUpdate key v)
      (setStore (match v with
                 | Some x => <[key := x]> (globalState w)
                 | None => delete key (globalState w)
                 end) w)).

(** [token.isCancellationRequested] *)
Definition isCancellationRequested (token : nat) : M bool :=
  fun w => (Returned (bool_decide (token ∈ cancelledTokens w)), w).

(** [throwIfCancelled(token)] *)
Definition throwIfCancelled (token : nat) : M unit :=
  c <- isCancellationRequested token ;;
  if c then throw (Error "cancelled") else ret tt.

(** [new LocalAppClient('http://localhost:' + config.apiPort, ...)] *)
Record LocalAppClient := mkClient { endpoint : string }.

(** How one pass through the body of the [while] loop of [withLocalApp]
    leaves it: [return], [continue], or falling through after
    [restartAttempts++]. *)
Inductive Next (T : Type) :=
| Finish (result : T)
| Retry
| Restart.
Arguments Finish {T} result.
Arguments Retry {T}.
Arguments Restart {T}.

Section Program.

Variable env : Env.

(** The callback of the interval timer of [withLock] (lines 93-98). *)
Definition watchTick (w : World) : World :=
  match watch w with
  | Some (lockKey, v, token) =>
      if bool_decide (lockValue (globalState w !! lockKey) = Some v)
      then w else cancelToken token w
  | None => w
  end.

(** A suspension point: the promise awaited settles after the environment
    has acted on the store, time has passed and, possibly, the interval
    timer of a held lock has run. *)
Definition resume (w : World) : World :=
  let n := ticks w in
  let w1 :=
    mkWorld (interfere env n (globalState w))
            (clock w + Z.of_N (elapsed env n)) (lockCount w) (tokenSources w)
            (cancelledTokens w) (watch w) (events w) (S n) in
  if timerRuns env n then watchTick w1 else w1.

Definition suspend : M unit := modify resume.

(** [await new Promise(resolve => setTimeout(resolve, ms))] *)
Definition sleep (ms : Z) : M unit :=
  emit (EvSleep ms) ;;; modify (advance ms) ;;; suspend.

(** ** The persisted lock *)

Definition lockPrefix : string := "lock/".
Definition fastLockTimeout : Z := 30000.
Definition slowLockTimeout : Z := 300000.

(** [key.startsWith(p)] *)
Definition startsWith (p key : string) : bool := String.prefix p key.

(** [key.substr(n)] *)
Definition substr (n : nat) (key : string) : string :=
  String.substring n (Nat.sub (String.length key) n) key.

(** The test of line 65:
    [typeof lock !== 'object' || performance.now() >= lock.deadline];
    comparing with an [undefined] deadline is false. *)
Definition isStale (now : Z) (lock : option Stored) : bool :=
  negb (isObject lock) ||
  match lockDeadline lock with
  | Some d => Z.leb d now
  | None => false
  end.

(** The body of the [for] loop of [releaseStaleLocks]. *)
Definition releaseIfStale (key : string) : M unit :=
  if startsWith lockPrefix key then
    lock <- stateGet key ;;
    now <- performanceNow ;;
    if isStale now lock then
      appendLine (CancelStaleLock (substr (String.length lockPrefix) key)) ;;;
      stateUpdate key None
    else ret tt
  else ret tt.

Fixpoint forEach {A} (body : A -> M unit) (l : list A) : M unit :=
  match l with
  | [] => ret tt
  | x :: rest => body x ;;; forEach body rest
  end.

(** [context.globalState.keys()]; the order of enumeration is the one of
    the map, not the insertion order of the memento. *)
Definition stateKeys : M (list string) :=
  fun w => (Returned (map fst (map_to_list (globalState w))), w).

Definition releaseStaleLocks : M unit :=
  keys <- stateKeys ;;
  forEach releaseIfStale keys.

(** [setInterval(() => releaseStaleLocks(), fastLockTimeout)] *)
Definition releaseStaleLocksTimer : Z := fastLockTimeout.

(** Number-to-string conversion of string concatenation. *)
Definition decimal (n : nat) : string := NilEmpty.string_of_uint (Nat.to_uint n).
Definition decimalZ (z : Z) : string := NilEmpty.string_of_int (Z.to_int z).

Definition updateTimeout : Z := 150.

(** Lines 82-85 up to the first [await]: read the lock and, if there is
    none, write one's own; the result tells whether a write was made. *)
Definition claimIfFree (lockKey v : string) (timeout : Z) : M bool :=
  currentLock <- stateGet lockKey ;;
  if truthy currentLock then ret false
  else
    now <- performanceNow ;;
    stateUpdate lockKey
      (Some (SLock (mkLock v (now + timeout + updateTimeout * 2)))) ;;;
    ret true.

(** One round of the [while] loop of [withLock] (lines 82-89); the result
    is [currentLock] as read after the wait. *)
Definition pollLock (lockKey v : string) (timeout : Z) : M (option Stored) :=
  wrote <- claimIfFree lockKey v timeout ;;
  (if wrote : bool then suspend else ret tt) ;;;
  sleep updateTimeout ;;;
  stateGet lockKey.

(** [while (currentLock?.value !== value) { ... }]: [currentLock] starts
    [undefined], so the body runs at least once. *)
Fixpoint acquireLock (fuel : nat) (lockKey v : string) (timeout : Z) : M unit :=
  match fuel with
  | O => diverge
  | S fuel' =>
      currentLock <- pollLock lockKey v timeout ;;
      if bool_decide (lockValue currentLock = Some v) then ret tt
      else acquireLock fuel' lockKey v timeout
  end.

(** [lockCount++] *)
Definition nextLockCount : M nat :=
  fun w =>
    (Returned (lockCount w),
     mkWorld (globalState w) (clock w) (S (lockCount w)) (tokenSources w)
             (cancelledTokens w) (watch w) (events w) (ticks w)).

(** [new vscode.CancellationTokenSource()] *)
Definition newTokenSource : M nat :=
  fun w =>
    (Returned (tokenSources w),
     mkWorld (globalState w) (clock w) (lockCount w) (S (tokenSources w))
             (cancelledTokens w) (watch w) (events w) (ticks w)).

(** The holder token of the [n]-th call of [withLock] in this session. *)
Definition lockToken (n : nat) : string := sessionId env +:+ "/" +:+ decimal n.

(** The [finally] block of [withLock] (lines 103-107). *)
Definition releaseLock (lockName lockKey : string) : M unit :=
  modify (setWatch None) ;;;
  appendLine (ReleasedLock lockName) ;;;
  stateUpdate lockKey None ;;;
  suspend.

Definition withLock {T} (fuel : nat) (lockName : string) (op : nat -> M T)
    (timeout : Z) : M T :=
  appendLine (AcquiringLock lockName) ;;;
  let lockKey := lockPrefix +:+ lockName in
  n <- nextLockCount ;;
  let v := lockToken n in
  acquireLock fuel lockKey v timeout ;;;
  appendLine (AcquiredLock lockName) ;;;
  token <- newTokenSource ;;
  modify (setWatch (Some (lockKey, v, token))) ;;;
  tryFinally (op token) (releaseLock lockName lockKey).

(** ** Installation and process management *)

(** An awaited promise of the outside world. *)
Definition await {A} (result : nat -> JsError + A) : M A :=
  fun w =>
    match result (ticks w) with
    | inl e => (Thrown e, resume w)
    | inr a => (Returned a, resume w)
    end.

Definition awaitVoid (result : nat -> option JsError) : M unit :=
  await (fun n => match result n with Some e => inl e | None => inr tt end).

(** [process.kill(pid, signal)]: synchronous, throws when the signal
    cannot be delivered. *)
Definition processKill (p : Z) (s : Signal) : M unit :=
  emit (EvKill p s) ;;;
  fun w =>
    match killResult env (ticks w) p s with
    | Some e => (Thrown e, w)
    | None => (Returned tt, w)
    end.

Definition downloadPath : string :=
  match platform env with
  | Win32 => "/static/bin/gitpod-local-companion-windows.exe"
  | Darwin => "/static/bin/gitpod-local-companion-darwin"
  | OtherPlatform => "/static/bin/gitpod-local-companion-linux"
  end.

Definition downloadLocalApp (host : string) : M Response :=
  let downloadUri := uriWithPath env host downloadPath in
  appendLine (FetchingFrom downloadUri) ;;;
  emit (EvFetch downloadUri) ;;;
  await (fun n => fetchResult env n downloadUri).

Definition installLocalApp (download : Response) (token : nat)
    : M LocalAppInstallation :=
  tryCatch
    (let fileExtension :=
       match platform env with Win32 => Some ".exe" | _ => None end in
     emit (EvTmpFile "gitpod-local-companion" fileExtension) ;;;
     installationPath <- await (tmpFileResult env) ;;
     throwIfCancelled token ;;;
     appendLine (InstallingTo installationPath) ;;;
     throwIfCancelled token ;;;
     emit (EvPipeline installationPath) ;;;
     awaitVoid (pipelineResult env) ;;;
     throwIfCancelled token ;;;
     (match platform env with
      | Win32 => ret tt
      | _ =>
          emit (EvChmod installationPath) ;;;
          awaitVoid (chmodResult env) ;;;
          throwIfCancelled token
      end) ;;;
     let installation := mkInstallation installationPath (headerEtag download) in
     appendLine (Installed installation) ;;;
     ret installation)
    (fun e => appendLine (InstallFailed e) ;;; throw e).

Definition exitMessage (exitCode : option Z) : string :=
  "unexpectedly exit with code: " +:+
  match exitCode with Some c => decimalZ c | None => "null" end.

(** The promise of lines 182-219: open the log and spawn the detached
    process.  A token cancelled by then rejects the promise, the process
    being spawned all the same; otherwise the promise is rejected by an
    error or an exit of the process, or resolved with its pid by the
    first zero-signal probe of the 150 ms interval that goes through. *)
Definition spawnLocalApp (host file : string) (port : Z)
    (installation : LocalAppInstallation) (log : string) (token : nat) : M Z :=
  emit (EvOpenLog log) ;;;
  awaitVoid (openLogResult env) ;;;
  cancelled <- isCancellationRequested token ;;
  emit (EvSpawn (path installation) host file port) ;;;
  outcome <- (fun w => (Returned (spawnResult env (ticks w) (path installation)), w)) ;;
  if cancelled : bool then throw (Error "cancelled")
  else
    match outcome with
    | SpawnError e => suspend ;;; throw e
    | SpawnExit c => suspend ;;; throw (Error (exitMessage c))
    | SpawnAlive p =>
        modify (advance updateTimeout) ;;;
        suspend ;;;
        emit (EvKill p Signal0) ;;;
        ret p
    end.

Definition startLocalApp (host : string) (installation : LocalAppInstallation)
    (token : nat) : M LocalAppConfig :=
  tryCatch
    (emit (EvTmpFile "gitpod_ssh_config" None) ;;;
     emit EvListen ;;;
     both <- await (fun n =>
               match tmpFileResult env n with
               | inl e => inl e
               | inr file => inr (file, listenPort env n)
               end) ;;
     let file := fst both in
     let port := snd both in
     throwIfCancelled token ;;;
     appendLine (Starting host file port) ;;;
     let log := path installation +:+ ".log" in
     p <- spawnLocalApp host file port installation log token ;;
     appendLine (Started p log) ;;;
     ret (mkConfig host file port p log))
    (fun e => appendLine (StartFailed e) ;;; throw e).

(** Lines 232-241: the fetch is kept as a value, a failure included. *)
Definition fetchDownload (host : string) (token : nat) : M (JsError + Response) :=
  tryCatch
    (download <- downloadLocalApp host ;;
     throwIfCancelled token ;;;
     if ok download then ret (inr download)
     else ret (inl (Error ("unexpected download response " +:+
                           statusText download +:+ " (" +:+
                           decimalZ (status download) +:+ ")"))))
    (fun e => ret (inl e)).

(** The condition of line 246:
    [upgrade && upgrade.etag && upgrade.etag !== installation.etag]. *)
Definition isOutdated (download : JsError + Response)
    (installation : LocalAppInstallation) : bool :=
  match download with
  | inl _ => false
  | inr r =>
      match headerEtag r with
      | Some t => negb (String.eqb t "") && negb (bool_decide (Some t = etag installation))
      | None => false
      end
  end.

(** Lines 244-258: what is left of the cached [config] and [installation]
    once an upgrade has been looked for. *)
Definition dropOutdated (download : JsError + Response)
    (config : option LocalAppConfig) (installation : option LocalAppInstallation)
    : M (option LocalAppConfig * option LocalAppInstallation) :=
  match installation with
  | Some i =>
      if isOutdated download i then
        appendLine (Outdated i
                      (match download with inr r => headerEtag r | inl _ => None end)
                      (match download with inr r => url r | inl _ => "" end)) ;;;
        (match config with
         | Some c =>
             tryCatch (processKill (pid c) SIGTERM)
                      (fun e => appendLine (KillFailed (pid c) e))
         | None => ret tt
         end) ;;;
        ret (None, None)
      else ret (config, installation)
  | None => ret (config, installation)
  end.

(** Lines 262-269. *)
Definition checkExecutable (installation : option LocalAppInstallation)
    (token : nat) : M (option LocalAppInstallation) :=
  match installation with
  | Some i =>
      tryCatch
        (emit (EvAccess (path i)) ;;;
         await (fun n => if accessResult env n (path i) then inr tt
                         else inl (Error "EACCES")) ;;;
         throwIfCancelled token ;;;
         ret (Some i))
        (fun _ => ret None)
  | None => ret None
  end.

(** Lines 270-277. *)
Definition installIfMissing (download : JsError + Response)
    (installation : option LocalAppInstallation) (installationKey : string)
    (token : nat) : M LocalAppInstallation :=
  match installation with
  | Some i => ret i
  | None =>
      match download with
      | inl e => throw e
      | inr r =>
          i <- installLocalApp r token ;;
          stateUpdate installationKey (Some (SInstallation i)) ;;;
          suspend ;;;
          throwIfCancelled token ;;;
          ret i
      end
  end.

(** Lines 262-281: from an installation that may be there to a running
    local app. *)
Definition provision (download : JsError + Response)
    (installation : option LocalAppInstallation)
    (host configKey installationKey : string) (token : nat) : M LocalAppConfig :=
  checked <- checkExecutable installation token ;;
  i <- installIfMissing download checked installationKey token ;;
  c <- startLocalApp host i token ;;
  stateUpdate configKey (Some (SConfig c)) ;;;
  suspend ;;;
  throwIfCancelled token ;;;
  ret c.

Definition ensureLocalApp (host configKey installationKey : string) (token : nat)
    : M LocalAppConfig :=
  download <- fetchDownload host token ;;
  config <- stateGet configKey ;;
  installation <- stateGet installationKey ;;
  kept <- dropOutdated download (asConfig config) (asInstallation installation) ;;
  match fst kept with
  | Some c => ret c
  | None => provision download (snd kept) host configKey installationKey token
  end.

(** ** The coordinator *)

(** [e.code === grpc.Code.Unavailable || e.code === grpc.Code.Unknown] *)
Definition isTransient (e : JsError) : bool :=
  bool_decide (code e = Some Unavailable) || bool_decide (code e = Some Unknown).

(** [JSON.stringify(stored) === JSON.stringify(config)]: both sides are
    flat records written by line 221, so the texts agree exactly when the
    stored value is a config with the same fields. *)
Definition sameJson (stored : option Stored) (config : LocalAppConfig) : bool :=
  bool_decide (stored = Some (SConfig config)).

(** The operation run under the lock in lines 317-321. *)
Definition forgetConfig (configKey : string) (config : LocalAppConfig) : M unit :=
  stored <- stateGet configKey ;;
  if sameJson stored config then stateUpdate configKey None ;;; suspend
  else ret tt.

(** [process.kill(config.pid, 0)] of lines 298-304; [None] is [true]. *)
Definition probe (p : Z) : M (option JsError) :=
  tryCatch (processKill p Signal0 ;;; ret None) (fun e2 => ret (Some e2)).

(** The caller's [op]: a call into the local app whose promise settles at
    a suspension point. *)
Definition Operation (T : Type) : Type :=
  LocalAppClient -> LocalAppConfig -> nat -> JsError + T.

Definition attempt {T} (fuel : nat) (host gitpodAuthority configKey installationKey : string)
    (op : Operation T) : M (Next T) :=
  config <- withLock fuel gitpodAuthority
              (fun token => ensureLocalApp host configKey installationKey token)
              slowLockTimeout ;;
  let client := mkClient ("http://localhost:" +:+ decimalZ (apiPort config)) in
  tryCatch
    (result <- await (op client config) ;; ret (Finish result))
    (fun e =>
       running <- probe (pid config) ;;
       match running with
       | None =>
           if isTransient e then
             appendLine (ApiNotReady (pid config) e) ;;;
             appendLine RetryingAfterDelay ;;;
             sleep 1000 ;;;
             ret Retry
           else throw e
       | Some e2 =>
           appendLine (AccessFailed e) ;;;
           appendLine (NotRunning (pid config) e2) ;;;
           appendLine Restarting ;;;
           withLock fuel gitpodAuthority
             (fun _ => forgetConfig configKey config) fastLockTimeout ;;;
           ret Restart
       end).

(** The [while (restartAttempts < 5)] loop and the [throw] after it. *)
(** The [while (restartAttempts < 5)] loop and the [throw] after it;
    [rounds] bounds the passes through the body, [fuel] the polls of each
    lock acquisition. *)
Fixpoint withLocalAppLoop {T} (rounds fuel : nat)
    (host gitpodAuthority configKey installationKey : string)
    (op : Operation T) (restartAttempts : nat) : M T :=
  if Nat.ltb restartAttempts 5 then
    match rounds with
    | O => diverge
    | S rounds' =>
        next <- attempt fuel host gitpodAuthority configKey installationKey op ;;
        match next with
        | Finish result => ret result
        | Retry =>
            withLocalAppLoop rounds' fuel host gitpodAuthority configKey
              installationKey op restartAttempts
        | Restart =>
            withLocalAppLoop rounds' fuel host gitpodAuthority configKey
              installationKey op (S restartAttempts)
        end
    end
  else throw (Error "failed to access the local app").

Definition withLocalApp {T} (rounds fuel : nat) (host : string)
    (op : Operation T) : M T :=
  let gitpodAuthority := uriAuthority env host in
  let configKey := "config/" +:+ gitpodAuthority in
  let installationKey := "installation/" +:+ gitpodAuthority in
  withLocalAppLoop rounds fuel host gitpodAuthority configKey installationKey op 0.

End Program.

(** ** Concurrent callers of [withLock]

    Several calls of [withLock] on one lock name in one extension host,
    interleaved with the stale-lock sweep.  A turn is what runs between
    two suspension points: JavaScript runs it to completion, and the
    memento writes its in-memory value synchronously, so the read and the
    write of lines 82-85 are one turn. *)

Inductive Phase :=
| Waiting                            (* suspended in the loop, lines 85-88 *)
| Holding (cancelRequested : bool)   (* [op] is running *)
| Released.

Record Caller := mkCaller {
  ticket : nat;                      (* the [lockCount] taken at line 77 *)
  patience : Z;                      (* [timeout] *)
  phase : Phase
}.

Record System := mkSystem {
  world : World;
  callers : list Caller
}.

Inductive Turn :=
| Call (timeout : Z)      (* a new call, up to its first [await] *)
| Wake (i : nat)          (* caller [i] comes back from its 150 ms wait *)
| Watch (i : nat)         (* the interval timer of holder [i] fires *)
| Complete (i : nat)      (* [op] of holder [i] settles: the [finally] block *)
| Sweep                   (* [releaseStaleLocks] *)
| Pass (ms : N).          (* time goes by *)


Section Callers.

Variable env : Env.
Variable lockName : string.

Definition lockKeyOf : string := lockPrefix +:+ lockName.

Definition callTurn (timeout : Z) (s : System) : System :=
  match (appendLine (AcquiringLock lockName) ;;;
         n <- nextLockCount ;;
         claimIfFree lockKeyOf (lockToken env n) timeout ;;;
         ret n) (world s) with
  | (Returned n, w') => mkSystem w' (callers s ++ [mkCaller n timeout Waiting])
  | _ => s
  end.

Definition wakeTurn (i : nat) (s : System) : System :=
  match callers s !! i with
  | Some (mkCaller n timeout Waiting) =>
      if bool_decide (lockValue (globalState (world s) !! lockKeyOf)
                      = Some (lockToken env n))
      then mkSystem (snd (appendLine (AcquiredLock lockName) (world s)))
                    (<[i := mkCaller n timeout (Holding false)]> (callers s))
      else mkSystem (snd (claimIfFree lockKeyOf (lockToken env n) timeout (world s)))
                    (callers s)
  | _ => s
  end.

Definition watchTurn (i : nat) (s : System) : System :=
  match callers s !! i with
  | Some (mkCaller n timeout (Holding _)) =>
      if bool_decide (lockValue (globalState (world s) !! lockKeyOf)
                      = Some (lockToken env n))
      then s
      else mkSystem (world s) (<[i := mkCaller n timeout (Holding true)]> (callers s))
  | _ => s
  end.

Definition completeTurn (i : nat) (s : System) : System :=
  match callers s !! i with
  | Some (mkCaller n timeout (Holding _)) =>
      mkSystem (snd ((appendLine (ReleasedLock lockName) ;;;
                      stateUpdate lockKeyOf None) (world s)))
               (<[i := mkCaller n timeout Released]> (callers s))
  | _ => s
  end.

Definition turn (t : Turn) (s : System) : System :=
  match t with
  | Call timeout => callTurn timeout s
  | Wake i => wakeTurn i s
  | Watch i => watchTurn i s
  | Complete i => completeTurn i s
  | Sweep => mkSystem (snd (releaseStaleLocks (world s))) (callers s)
  | Pass ms => mkSystem (advance (Z.of_N ms) (world s)) (callers s)
  end.





End Callers.


(** ** Example hosts and worlds *)

Definition emptyWorld : World := mkWorld ∅ 0 0 0 ∅ None [] 0.

(** A lock of gitpod.io left behind by a holder that is gone. *)
Definition abandonedLock : Lock := mkLock "0c1d/0" 300300.

Definition abandonedWorld : World :=
  mkWorld {[ "lock/gitpod.io" := SLock abandonedLock ]} 300300 0 0 ∅ None [] 0.

(** A value is a well-formed lock record. *)
Definition wellFormedLock (v : Stored) : bool :=
  match v with SLock _ => true | _ => false end.

(** The deadline of a value has elapsed. *)
Definition deadlineElapsed (now : Z) (v : Stored) : bool :=
  match lockDeadline (Some v) with
  | Some d => Z.leb d now
  | None => false
  end.

(** The sweep read as clearing the entries that satisfy both conditions:
    an elapsed deadline and a value that is not a well-formed lock. *)
Definition sweepsBothConditions (w : World) : Prop :=
  forall key v,
    globalState w !! key = Some v ->
    (globalState (snd (releaseStaleLocks w)) !! key = None <->
     startsWith lockPrefix key = true /\
     deadlineElapsed (clock w) v = true /\ wellFormedLock v = false).

(** A host for the examples: session "0c1d" on Linux, every file and
    process operation succeeds; what other tasks do to the store, what
    the server answers and what the signals report are left open. *)
Definition hostEnv (others : nat -> gmap string Stored -> gmap string Stored)
    (fetch : nat -> string -> JsError + Response)
    (kill : nat -> Z -> Signal -> option JsError) : Env :=
  mkEnv "0c1d" OtherPlatform (fun _ => "gitpod.io") (fun h p => h +:+ p)
        others (fun _ => 0%N) (fun _ => true) fetch
        (fun n => inr ("/tmp/gitpod-" +:+ decimal n))
        (fun _ => None) (fun _ => None) (fun _ _ => true)
        (fun n => 40000 + Z.of_nat n) (fun _ => None)
        (fun n _ => SpawnAlive (1000 + Z.of_nat n)) kill.

Definition undisturbed : nat -> gmap string Stored -> gmap string Stored :=
  fun _ s => s.

Definition serves (tag : string) : nat -> string -> JsError + Response :=
  fun _ u => inr (mkResponse true 200 "OK" (Some tag) u).

Definition offline : nat -> string -> JsError + Response :=
  fun _ _ => inl (Error "request failed: ENOTFOUND").

Definition allDead : nat -> Z -> Signal -> option JsError :=
  fun _ _ _ => Some (Error "kill ESRCH").

Definition allAlive : nat -> Z -> Signal -> option JsError :=
  fun _ _ _ => None.

Definition quietEnv : Env := hostEnv undisturbed (serves "v1") allAlive.

(** ** Worlds along a call of [withLock] *)

(** The world in which the second read of a round takes place. *)
Definition afterRound (env : Env) (lockKey v : string) (timeout : Z) (w : World) : World :=
  let written := SLock (mkLock v (clock w + timeout + 2 * 150)) in
  let w1 :=
    if truthy (globalState w !! lockKey) then w
    else resume env
           (addEvent (EvUpdate lockKey (Some written))
              (setStore (<[lockKey := written]> (globalState w)) w)) in
  resume env (advance 150 (addEvent (EvSleep 150) w1)).

(** The world in which the loop of [withLock] starts: line 75 has written
    its line and line 77 has taken [lockCount]. *)
Definition entering (lockName : string) (w : World) : World :=
  mkWorld (globalState w) (clock w) (S (lockCount w)) (tokenSources w)
          (cancelledTokens w) (watch w)
          (EvOutput (AcquiringLock lockName) :: events w) (ticks w).

(** The world in which [op] starts, [w] being the one in which the loop
    ended: lines 91-98. *)
Definition holding (lockName lockKey v : string) (w : World) : World :=
  mkWorld (globalState w) (clock w) (lockCount w) (S (tokenSources w))
          (cancelledTokens w) (Some (lockKey, v, tokenSources w))
          (EvOutput (AcquiredLock lockName) :: events w) (ticks w).

(** The world in which [withLock] ends, [w] being the one in which [op]
    ended: lines 103-107. *)
Definition released (env : Env) (lockName lockKey : string) (w : World) : World :=
  resume env
    (addEvent (EvUpdate lockKey None)
       (setStore (delete lockKey (globalState w))
          (addEvent (EvOutput (ReleasedLock lockName)) (setWatch None w)))).

(** An operation under the lock that finds its lock taken over by
    another holder, and fails. *)
Definition usurpedOp : nat -> M unit :=
  fun _ =>
    stateUpdate "lock/gitpod.io" (Some (SLock (mkLock "77aa/3" 0))) ;;;
    throw (Error "disk full").

(** ** Worlds along a call of [ensureLocalApp] *)

Definition downloadUriOf (env : Env) (host : string) : string :=
  uriWithPath env host (downloadPath env).

(** The world in which the fetch of line 234 has settled. *)
Definition afterFetch (env : Env) (host : string) (w : World) : World :=
  resume env
    (addEvent (EvFetch (downloadUriOf env host))
       (addEvent (EvOutput (FetchingFrom (downloadUriOf env host))) w)).

(** The value of [download] after lines 232-241. *)
Definition downloadSeen (env : Env) (host : string) (token : nat) (w : World)
    : JsError + Response :=
  match fetchResult env (ticks w) (downloadUriOf env host) with
  | inl e => inl e
  | inr r =>
      if bool_decide (token ∈ cancelledTokens (afterFetch env host w))
      then inl (Error "cancelled")
      else if ok r then inr r
      else inl (Error ("unexpected download response " +:+ statusText r +:+
                       " (" +:+ decimalZ (status r) +:+ ")"))
  end.

(** ** Counting events *)

Definition tally (f : Event -> bool) (w : World) : nat :=
  length (List.filter f (events w)).

Definition isRestartLine (e : Event) : bool :=
  match e with EvOutput Restarting => true | _ => false end.



Definition isPipeline (e : Event) : bool :=
  match e with EvPipeline _ => true | _ => false end.

(** An operation keeps a tally when no run of it changes the count. *)
Definition Keeps {A} (f : Event -> bool) (m : M A) : Prop :=
  forall w, tally f (snd (m w)) = tally f w.

(** A world with the local app of gitpod.io installed and believed to
    run as process 4711. *)
Definition cachedInstallation : LocalAppInstallation :=
  mkInstallation "/tmp/gitpod-local-companion-1" (Some "v1").

Definition cachedConfig : LocalAppConfig :=
  mkConfig "https://gitpod.io" "/tmp/gitpod_ssh_config-2" 40002 4711
           "/tmp/gitpod-local-companion-1.log".

Definition provisionedWorld : World :=
  mkWorld {[ "installation/gitpod.io" := SInstallation cachedInstallation;
             "config/gitpod.io" := SConfig cachedConfig ]}
          0 0 0 ∅ None [] 0.

(** What acquiring and releasing a lock sends out, the line
    "acquired lock" apart. *)
Definition lockTraffic (e : Event) : bool :=
  match e with
  | EvOutput (AcquiringLock _) | EvOutput (ReleasedLock _) => true
  | EvUpdate _ _ => true
  | EvSleep ms => Z.eqb ms updateTimeout
  | _ => false
  end.

(** What [ensureLocalApp] sends out, the streaming of the download body
    apart. *)
Definition provisioningTraffic (e : Event) : bool :=
  match e with
  | EvOutput (FetchingFrom _) | EvOutput (InstallingTo _) | EvOutput (Installed _)
  | EvOutput (InstallFailed _) | EvOutput (Starting _ _ _) | EvOutput (Started _ _)
  | EvOutput (StartFailed _) | EvOutput (Outdated _ _ _) | EvOutput (KillFailed _ _) => true
  | EvUpdate _ _ | EvFetch _ | EvTmpFile _ _ | EvChmod _ | EvAccess _ | EvListen
  | EvOpenLog _ | EvSpawn _ _ _ _ | EvKill _ _ => true
  | _ => false
  end.

(** ** Worlds along a pass through the loop of [withLocalApp] *)

Definition clientOf (config : LocalAppConfig) : LocalAppClient :=
  mkClient ("http://localhost:" +:+ decimalZ (apiPort config)).

(** The zero-signal probe has been sent, [w] being the world in which the
    lock of [ensureLocalApp] was released. *)
Definition probed (env : Env) (config : LocalAppConfig) (w : World) : World :=
  addEvent (EvKill (pid config) Signal0) (resume env w).

(** Lines 306-309 are done. *)
Definition retried (env : Env) (config : LocalAppConfig) (e : JsError) (w : World)
    : World :=
  resume env
    (advance 1000
       (addEvent (EvSleep 1000)
          (addEvent (EvOutput RetryingAfterDelay)
             (addEvent (EvOutput (ApiNotReady (pid config) e)) (probed env config w))))).

(** Lines 314-316 are done. *)
Definition foundDead (env : Env) (config : LocalAppConfig) (e e2 : JsError)
    (w : World) : World :=
  addEvent (EvOutput Restarting)
    (addEvent (EvOutput (NotRunning (pid config) e2))
       (addEvent (EvOutput (AccessFailed e)) (probed env config w))).

(** One pass through the body of the loop, for the keys of the host. *)
Definition pass {T} (env : Env) (fuel : nat) (host : string) (op : Operation T)
    : M (Next T) :=
  attempt env fuel host (uriAuthority env host)
          ("config/" +:+ uriAuthority env host)
          ("installation/" +:+ uriAuthority env host) op.

(** The world after [j] passes. *)
Definition worldAfter {T} (env : Env) (fuel : nat) (host : string)
    (op : Operation T) (j : nat) (w : World) : World :=
  Nat.iter j (fun w => snd (pass env fuel host op w)) w.

(** The loop of [withLocalApp] for the keys of the host, entered with
    [restartAttempts]. *)
Definition loopOf {T} (env : Env) (rounds fuel : nat) (host : string)
    (op : Operation T) (restartAttempts : nat) : M T :=
  withLocalAppLoop env rounds fuel host (uriAuthority env host)
    ("config/" +:+ uriAuthority env host)
    ("installation/" +:+ uriAuthority env host) op restartAttempts.

(** ** Example operations *)

(** A local app that never answers. *)
Definition failingOp : Operation string :=
  fun _ _ _ => inl (mkError "connection refused" (Some Unavailable)).

(** A local app whose endpoint is not ready for the first two calls. *)
Definition flakyOp : Operation string :=
  fun _ _ n =>
    if Nat.ltb n 20 then inl (mkError "endpoint not ready" (Some Unavailable))
    else inr "/tmp/gitpod_ssh_config-9".

(** A host on which every process is found dead. *)
Definition deadEnv : Env := hostEnv undisturbed (serves "v1") allDead.


(** The config with which the first pass on [deadEnv] leaves
    [ensureLocalApp], and the world it leaves it in. *)
Definition firstConfig : LocalAppConfig :=
  Eval vm_compute in
    match fst (withLock deadEnv 1 "gitpod.io"
                 (fun token => ensureLocalApp deadEnv "https://gitpod.io"
                                 "config/gitpod.io" "installation/gitpod.io" token)
                 slowLockTimeout emptyWorld) with
    | Returned c => c
    | _ => cachedConfig
    end.



(** A host whose server has moved on to version "v2". *)
Definition upgradedEnv : Env := hostEnv undisturbed (serves "v2") allAlive.

(** ** Schedules of concurrent callers *)






(** ** Further notions used in the statements *)

Definition isSpawn (e : Event) : bool :=
  match e with EvSpawn _ _ _ _ => true | _ => false end.

Definition isChmod (e : Event) : bool :=
  match e with EvChmod _ => true | _ => false end.

(** An environment that leaves the binding of a key as it is. *)
Definition leavesAlone (env : Env) (key : string) : Prop :=
  forall n s, interfere env n s !! key = s !! key.

(** An environment in which nobody else takes a lock that is free. *)
Definition leavesFree (env : Env) (key : string) : Prop :=
  forall n s, s !! key = None -> interfere env n s !! key = None.

(** A world in which the lock of gitpod.io is held by another window,
    with a deadline far away. *)
Definition contendedWorld : World :=
  mkWorld {[ "lock/gitpod.io" := SLock (mkLock "77aa/3" 900000) ]}
          0 0 0 ∅ None [] 0.


(** A local app that refuses the call. *)
Definition deniedOp : Operation string :=
  fun _ _ _ => inl (mkError "permission denied" (Some PermissionDenied)).

(** A host without network. *)
Definition offlineEnv : Env := hostEnv undisturbed offline allAlive.


(** ** Worlds along a call of [startLocalApp] *)

(** The world in which the config file and the port are known (line 177). *)
Definition afterStartSetup (env : Env) (w : World) : World :=
  resume env (addEvent EvListen (addEvent (EvTmpFile "gitpod_ssh_config" None) w)).

(** The world in which the log stream has opened (line 185), [w] being the
    one in which the config file and the port were known. *)
Definition afterLogOpen (env : Env) (host file : string) (port : Z)
    (i : LocalAppInstallation) (w : World) : World :=
  resume env
    (addEvent (EvOpenLog (path i +:+ ".log"))
       (addEvent (EvOutput (Starting host file port)) w)).

(** A host on which the lock of gitpod.io is taken away during the second
    suspension, and a world in which that lock is held with token 0. *)
Definition lockLostEnv : Env :=
  hostEnv (fun n s => if Nat.eqb n 1 then delete "lock/gitpod.io" s else s)
          (serves "v1") allAlive.

Definition heldWorld : World :=
  mkWorld {[ "lock/gitpod.io" := SLock (mkLock "0c1d/0" 300300) ]}
          0 1 1 ∅ (Some ("lock/gitpod.io", "0c1d/0", 0%nat)) [] 0.

(** The world in which [ensureLocalApp] has looked at the file of an
    installation, if there is one, [w] being the world in which the fetch
    has settled. *)
Definition afterAccess (env : Env) (i : option LocalAppInstallation) (w : World)
    : World :=
  match i with
  | Some inst => resume env (addEvent (EvAccess (path inst)) w)
  | None => w
  end.


(** An operation preserves an invariant of the world when every run of it
    that starts in the invariant ends in it. *)
Definition Preserves {A} (I : World -> Prop) (m : M A) : Prop :=
  forall w, I w -> I (snd (m w)).

(** The lock of a key is held with a token that is not cancelled. *)
Definition holdsUncancelled (lockKey v : string) (token : nat) (w : World) : Prop :=
  watch w = Some (lockKey, v, token) /\
  lockValue (globalState w !! lockKey) = Some v /\
  token ∉ cancelledTokens w.

(** * Properties *)

(** ** The stale-lock sweep *)

Lemma releaseIfStale_run key w :
  releaseIfStale key w =
  (Returned tt,
   if startsWith lockPrefix key && isStale (clock w) (globalState w !! key)
   then addEvent (EvUpdate key None)
          (setStore (delete key (globalState w))
             (addEvent (EvOutput (CancelStaleLock (substr (String.length lockPrefix) key))) w))
   else w).
Proof.
  unfold releaseIfStale.
  destruct (startsWith lockPrefix key); [|reflexivity].
  unfold bind, stateGet, performanceNow; cbn.
  destruct (isStale (clock w) (globalState w !! key)); reflexivity.
Qed.

Lemma isStale_absent now : isStale now None = true.
Proof. reflexivity. Qed.

Lemma forEach_releaseIfStale keys : forall w,
  exists w',
    forEach releaseIfStale keys w = (Returned tt, w') /\
    clock w' = clock w /\
    forall k,
      globalState w' !! k =
      if bool_decide (k ∈ keys) && startsWith lockPrefix k
         && isStale (clock w) (globalState w !! k)
      then None else globalState w !! k.
Proof.
  induction keys as [|key rest IH]; intros w.
  - exists w. repeat split.
  - cbn [forEach]. unfold bind at 1. rewrite releaseIfStale_run.
    set (w1 := if startsWith lockPrefix key && isStale (clock w) (globalState w !! key)
               then _ else w).
    destruct (IH w1) as (w' & Hrun & Hclock & Hstore).
    assert (Hc1 : clock w1 = clock w).
    { subst w1. destruct (_ && _); reflexivity. }
    assert (Hs1 : forall k, globalState w1 !! k =
              if bool_decide (k = key) && startsWith lockPrefix k
                 && isStale (clock w) (globalState w !! k)
              then None else globalState w !! k).
    { intros k. subst w1. case_bool_decide as Hk.
      - subst k. destruct (startsWith lockPrefix key); cbn; [|reflexivity].
        destruct (isStale (clock w) (globalState w !! key)); cbn; [|reflexivity].
        apply lookup_delete_eq.
      - cbn. destruct (_ && _); cbn; [|reflexivity].
        apply lookup_delete_ne. congruence. }
    exists w'. split; [exact Hrun|]. split; [congruence|].
    intros k. rewrite Hstore, Hc1, Hs1.
    destruct (decide (k = key)) as [->|Hne].
    + rewrite (bool_decide_eq_true_2 (key = key)) by reflexivity.
      rewrite (bool_decide_eq_true_2 (key ∈ key :: rest)) by apply list_elem_of_here.
      cbn. destruct (startsWith lockPrefix key); cbn.
      * destruct (isStale (clock w) (globalState w !! key)) eqn:Hst; cbn.
        -- destruct (bool_decide _); reflexivity.
        -- rewrite Hst. rewrite andb_false_r. reflexivity.
      * rewrite andb_false_r. reflexivity.
    + rewrite (bool_decide_eq_false_2 (k = key)) by assumption. cbn.
      assert (bool_decide (k ∈ key :: rest) = bool_decide (k ∈ rest)) as ->.
      { apply bool_decide_ext. rewrite elem_of_cons. intuition congruence. }
      reflexivity.
Qed.

Lemma releaseStaleLocks_run w :
  exists w',
    releaseStaleLocks w = (Returned tt, w') /\
    clock w' = clock w /\
    forall k,
      globalState w' !! k =
      if startsWith lockPrefix k && isStale (clock w) (globalState w !! k)
      then None else globalState w !! k.
Proof.
  unfold releaseStaleLocks, bind, stateKeys.
  destruct (forEach_releaseIfStale (map fst (map_to_list (globalState w))) w)
    as (w' & Hrun & Hclock & Hstore).
  exists w'. split; [exact Hrun|]. split; [exact Hclock|].
  intros k. rewrite Hstore.
  destruct (globalState w !! k) as [v|] eqn:Hk.
  - rewrite bool_decide_eq_true_2; [reflexivity|].
    apply list_elem_of_fmap. exists (k, v). split; [reflexivity|].
    apply elem_of_map_to_list. exact Hk.
  - destruct (_ && _ && _), (_ && _); reflexivity.
Qed.

(** C7 (as stated): the sweep does not clear exactly the entries with an
    elapsed deadline and a value that is not a well-formed lock record; the
    well-formed lock of [abandonedWorld], whose deadline has elapsed, is
    cleared. *)
Lemma sweep_clears_well_formed_lock : ~ sweepsBothConditions abandonedWorld.
Proof.
  intros H.
  destruct (H "lock/gitpod.io" (SLock abandonedLock) eq_refl) as [Hclear _].
  assert (Hgone : globalState (snd (releaseStaleLocks abandonedWorld))
                    !! "lock/gitpod.io" = None) by (vm_compute; reflexivity).
  destruct (Hclear Hgone) as (_ & _ & Hwf). discriminate Hwf.
Qed.

(** C7 (amended): the sweep, set to run every 30000 ms, returns and clears
    exactly the entries under [lock/] whose value is not an object or
    whose deadline has been reached ([now >= deadline]); every other entry
    keeps its value. *)
Theorem sweep_clears_stale_entries (w : World) (key : string) :
  fst (releaseStaleLocks w) = Returned tt /\
  clock (snd (releaseStaleLocks w)) = clock w /\
  globalState (snd (releaseStaleLocks w)) !! key =
    (if startsWith lockPrefix key &&
        (negb (isObject (globalState w !! key)) ||
         match lockDeadline (globalState w !! key) with
         | Some d => Z.leb d (clock w)
         | None => false
         end)
     then None else globalState w !! key) /\
  releaseStaleLocksTimer = 30000.
Proof.
  destruct (releaseStaleLocks_run w) as (w' & Hrun & Hclock & Hstore).
  rewrite Hrun. cbn [fst snd].
  repeat split; [exact Hclock|]. apply Hstore.
Qed.

(** ** Holder tokens *)

Lemma append_inj_r (s a b : string) : s +:+ a = s +:+ b -> a = b.
Proof.
  induction s as [|c s IH]; cbn; intros H; [exact H|].
  injection H as H. exact (IH H).
Qed.

Lemma decimal_inj (n m : nat) : decimal n = decimal m -> n = m.
Proof.
  unfold decimal. intros H.
  apply (f_equal NilEmpty.uint_of_string) in H.
  rewrite !NilEmpty.usu in H. injection H as H.
  exact (Unsigned.to_uint_inj _ _ H).
Qed.

Lemma lockToken_inj env (n m : nat) : lockToken env n = lockToken env m -> n = m.
Proof.
  unfold lockToken. intros H.
  apply append_inj_r in H. apply append_inj_r in H.
  exact (decimal_inj _ _ H).
Qed.

(** ** Acquiring the lock *)

Lemma claimIfFree_run lockKey v timeout w :
  claimIfFree lockKey v timeout w =
  if truthy (globalState w !! lockKey) then (Returned false, w)
  else
    (Returned true,
     addEvent (EvUpdate lockKey (Some (SLock (mkLock v (clock w + timeout + updateTimeout * 2)))))
       (setStore (<[lockKey := SLock (mkLock v (clock w + timeout + updateTimeout * 2))]>
                    (globalState w)) w)).
Proof.
  unfold claimIfFree, bind, stateGet, performanceNow.
  destruct (truthy (globalState w !! lockKey)); reflexivity.
Qed.

Lemma pollLock_run env lockKey v timeout w :
  pollLock env lockKey v timeout w =
  (Returned (globalState (afterRound env lockKey v timeout w) !! lockKey),
   afterRound env lockKey v timeout w).
Proof.
  unfold pollLock, afterRound, bind. rewrite claimIfFree_run.
  destruct (truthy (globalState w !! lockKey)); reflexivity.
Qed.

Lemma acquireLock_step env fuel lockKey v timeout w :
  acquireLock env (S fuel) lockKey v timeout w =
  if bool_decide (lockValue (globalState (afterRound env lockKey v timeout w) !! lockKey)
                  = Some v)
  then (Returned tt, afterRound env lockKey v timeout w)
  else acquireLock env fuel lockKey v timeout (afterRound env lockKey v timeout w).
Proof.
  cbn [acquireLock]. unfold bind at 1. rewrite pollLock_run.
  destruct (bool_decide _); reflexivity.
Qed.

Lemma acquireLock_holds env fuel lockKey v timeout : forall w,
  fst (acquireLock env fuel lockKey v timeout w) = Returned tt ->
  lockValue (globalState (snd (acquireLock env fuel lockKey v timeout w)) !! lockKey)
  = Some v.
Proof.
  induction fuel as [|fuel IH]; intros w H.
  - discriminate H.
  - rewrite acquireLock_step in *.
    case_bool_decide as Hv; cbn [fst snd] in *; [exact Hv|].
    apply IH. exact H.
Qed.

Lemma acquireLock_never_throws env fuel lockKey v timeout : forall w e,
  fst (acquireLock env fuel lockKey v timeout w) <> Thrown e.
Proof.
  induction fuel as [|fuel IH]; intros w e.
  - discriminate.
  - rewrite acquireLock_step. case_bool_decide; [discriminate|apply IH].
Qed.

Lemma releaseLock_run env lockName lockKey w :
  releaseLock env lockName lockKey w = (Returned tt, released env lockName lockKey w).
Proof. reflexivity. Qed.

Lemma released_store env lockName lockKey w :
  globalState (released env lockName lockKey w)
  = interfere env (ticks w) (delete lockKey (globalState w)).
Proof.
  unfold released, resume. cbn.
  destruct (timerRuns env (ticks w)); reflexivity.
Qed.

Lemma released_events env lockName lockKey w :
  events (released env lockName lockKey w)
  = EvUpdate lockKey None :: EvOutput (ReleasedLock lockName) :: events w.
Proof.
  unfold released, resume. cbn.
  destruct (timerRuns env (ticks w)); reflexivity.
Qed.

Lemma withLock_run env T fuel lockName (op : nat -> M T) timeout w :
  withLock env fuel lockName op timeout w =
  match acquireLock env fuel (lockPrefix +:+ lockName)
          (lockToken env (lockCount w)) timeout (entering lockName w) with
  | (Returned _, w1) =>
      tryFinally (op (tokenSources w1))
        (releaseLock env lockName (lockPrefix +:+ lockName))
        (holding lockName (lockPrefix +:+ lockName) (lockToken env (lockCount w)) w1)
  | (Thrown e, w1) => (Thrown e, w1)
  | (Diverged, w1) => (Diverged, w1)
  end.
Proof.
  unfold withLock, bind at 1 2 3. cbn [appendLine emit modify nextLockCount].
  match goal with
  | |- context [acquireLock env fuel ?k ?v timeout ?w0] =>
      change w0 with (entering lockName w);
      change v with (lockToken env (lockCount w))
  end.
  destruct (acquireLock env fuel _ _ timeout (entering lockName w)) as [[[]|e|] w1];
    reflexivity.
Qed.

Lemma resume_events env w : events (resume env w) = events w.
Proof.
  unfold resume, watchTick. cbn.
  destruct (timerRuns env (ticks w)); [|reflexivity].
  destruct (watch w) as [[[k v] t]|]; [|reflexivity]. cbn.
  destruct (bool_decide _); reflexivity.
Qed.

Lemma resume_store env w :
  globalState (resume env w) = interfere env (ticks w) (globalState w).
Proof.
  unfold resume, watchTick. cbn.
  destruct (timerRuns env (ticks w)); [|reflexivity].
  destruct (watch w) as [[[k v] t]|]; [|reflexivity]. cbn.
  destruct (bool_decide _); reflexivity.
Qed.

Lemma resume_ticks env w : ticks (resume env w) = S (ticks w).
Proof.
  unfold resume, watchTick. cbn.
  destruct (timerRuns env (ticks w)); [|reflexivity].
  destruct (watch w) as [[[k v] t]|]; [|reflexivity]. cbn.
  destruct (bool_decide _); reflexivity.
Qed.

Lemma resume_cancelled env w t :
  t ∈ cancelledTokens w -> t ∈ cancelledTokens (resume env w).
Proof.
  unfold resume, watchTick. cbn.
  destruct (timerRuns env (ticks w)); [|trivial].
  destruct (watch w) as [[[k v] t']|]; [|trivial]. cbn.
  destruct (bool_decide _); cbn; [trivial|]. set_solver.
Qed.

Lemma afterRound_events env lockKey v timeout w :
  events (afterRound env lockKey v timeout w) =
  EvSleep 150 ::
  (if truthy (globalState w !! lockKey) then []
   else [EvUpdate lockKey (Some (SLock (mkLock v (clock w + timeout + 2 * 150))))])
  ++ events w.
Proof.
  unfold afterRound. rewrite resume_events. cbn.
  destruct (truthy (globalState w !! lockKey)); [reflexivity|].
  rewrite resume_events. reflexivity.
Qed.

(** C4: [withLock] takes the token "session id / lockCount", distinct for
    distinct counts, and polls with it: a round reads the lock, writes
    [{value, deadline = now + timeout + 2 * 150}] if there is none, waits
    150 ms and reads again; the loop ends exactly when that second read
    shows the caller's token, and goes into the next round otherwise. *)
Theorem withLock_acquires_by_polling env T fuel lockName (op : nat -> M T)
    timeout (w w' : World) :
  let lockKey := lockPrefix +:+ lockName in
  let v := sessionId env +:+ "/" +:+ decimal (lockCount w) in
  let written := SLock (mkLock v (clock w' + timeout + 2 * 150)) in
  (forall n m, lockToken env n = lockToken env m -> n = m) /\
  lockCount (entering lockName w) = S (lockCount w) /\
  withLock env fuel lockName op timeout w =
    match acquireLock env fuel lockKey v timeout (entering lockName w) with
    | (Returned _, w1) =>
        tryFinally (op (tokenSources w1)) (releaseLock env lockName lockKey)
                   (holding lockName lockKey v w1)
    | (Thrown e, w1) => (Thrown e, w1)
    | (Diverged, w1) => (Diverged, w1)
    end /\
  claimIfFree lockKey v timeout w' =
    (if truthy (globalState w' !! lockKey) then (Returned false, w')
     else (Returned true,
           addEvent (EvUpdate lockKey (Some written))
             (setStore (<[lockKey := written]> (globalState w')) w'))) /\
  pollLock env lockKey v timeout w' =
    (Returned (globalState (afterRound env lockKey v timeout w') !! lockKey),
     afterRound env lockKey v timeout w') /\
  events (afterRound env lockKey v timeout w') =
    EvSleep 150 ::
    (if truthy (globalState w' !! lockKey) then []
     else [EvUpdate lockKey (Some written)]) ++ events w' /\
  acquireLock env (S fuel) lockKey v timeout w' =
    (if bool_decide
          (lockValue (globalState (afterRound env lockKey v timeout w') !! lockKey)
           = Some v)
     then (Returned tt, afterRound env lockKey v timeout w')
     else acquireLock env fuel lockKey v timeout (afterRound env lockKey v timeout w')) /\
  (fst (acquireLock env fuel lockKey v timeout w') = Returned tt ->
   lockValue (globalState (snd (acquireLock env fuel lockKey v timeout w')) !! lockKey)
   = Some v).
Proof.
  intros lockKey v written.
  split; [apply lockToken_inj|].
  split; [reflexivity|].
  split; [apply withLock_run|].
  split; [apply claimIfFree_run|].
  split; [apply pollLock_run|].
  split; [apply afterRound_events|].
  split; [apply acquireLock_step|].
  apply acquireLock_holds.
Qed.

Lemma withLock_acquires_by_polling_witness :
  fst (acquireLock quietEnv 1 "lock/gitpod.io" "0c1d/0" 30000 emptyWorld) = Returned tt /\
  lockValue (globalState (snd (acquireLock quietEnv 1 "lock/gitpod.io" "0c1d/0" 30000
                                 emptyWorld)) !! "lock/gitpod.io")
  = Some "0c1d/0".
Proof.
  split; [vm_compute; reflexivity|].
  apply (withLock_acquires_by_polling quietEnv unit 1 "gitpod.io" usurpedOp 30000
           emptyWorld emptyWorld).
  vm_compute; reflexivity.
Defined.



(** ** The cached running config *)

Lemma fetchDownload_run env host token w :
  fetchDownload env host token w
  = (Returned (downloadSeen env host token w), afterFetch env host w).
Proof.
  unfold fetchDownload, tryCatch, bind at 1, downloadLocalApp, bind at 1 2.
  unfold downloadSeen. fold (downloadUriOf env host).
  cbn [appendLine emit modify]. unfold await.
  change (ticks (addEvent _ (addEvent _ w))) with (ticks w).
  fold (afterFetch env host w).
  destruct (fetchResult env (ticks w) (downloadUriOf env host)) as [e|r]; [reflexivity|].
  unfold bind, throwIfCancelled, bind, isCancellationRequested.
  destruct (bool_decide (token ∈ cancelledTokens (afterFetch env host w)));
    [reflexivity|].
  cbn. destruct (ok r); reflexivity.
Qed.

Lemma afterFetch_events env host w :
  events (afterFetch env host w)
  = EvFetch (downloadUriOf env host)
    :: EvOutput (FetchingFrom (downloadUriOf env host)) :: events w.
Proof. unfold afterFetch. rewrite resume_events. reflexivity. Qed.

Lemma afterFetch_store env host w :
  globalState (afterFetch env host w) = interfere env (ticks w) (globalState w).
Proof. unfold afterFetch. rewrite resume_store. reflexivity. Qed.

Lemma afterFetch_ticks env host w : ticks (afterFetch env host w) = S (ticks w).
Proof. unfold afterFetch. rewrite resume_ticks. reflexivity. Qed.

Lemma ensureLocalApp_run env host configKey installationKey token w :
  ensureLocalApp env host configKey installationKey token w =
  let w1 := afterFetch env host w in
  let d := downloadSeen env host token w in
  match dropOutdated env d (asConfig (globalState w1 !! configKey))
          (asInstallation (globalState w1 !! installationKey)) w1 with
  | (Returned kept, w2) =>
      match fst kept with
      | Some c => (Returned c, w2)
      | None => provision env d (snd kept) host configKey installationKey token w2
      end
  | (Thrown e, w2) => (Thrown e, w2)
  | (Diverged, w2) => (Diverged, w2)
  end.
Proof.
  unfold ensureLocalApp, bind at 1. rewrite fetchDownload_run.
  unfold bind at 1 2 3, stateGet. cbn zeta.
  destruct (dropOutdated env _ _ _ _) as [[kept|e|] w2]; [|reflexivity..].
  destruct (fst kept); reflexivity.
Qed.

Lemma dropOutdated_current env d c i w :
  (forall inst, i = Some inst -> isOutdated d inst = false) ->
  dropOutdated env d c i w = (Returned (c, i), w).
Proof.
  intros H. unfold dropOutdated. destruct i as [inst|]; [|reflexivity].
  rewrite (H inst eq_refl). reflexivity.
Qed.

Lemma isOutdated_no_upgrade d inst :
  (exists e, d = inl e) \/
  (exists r, d = inr r /\ (headerEtag r = None \/ headerEtag r = etag inst)) ->
  isOutdated d inst = false.
Proof.
  intros [[e ->]|(r & -> & [H|H])]; cbn; [reflexivity|rewrite H; reflexivity|].
  destruct (headerEtag r) as [t|]; [|reflexivity].
  rewrite bool_decide_eq_true_2 by exact H. cbn. apply andb_false_r.
Qed.


(** ** Tallies kept by the building blocks *)

Section Tally.

Variable f : Event -> bool.

Lemma tally_addEvent e w :
  tally f (addEvent e w) = (if f e then S (tally f w) else tally f w).
Proof. unfold tally. cbn. destruct (f e); reflexivity. Qed.

Lemma tally_resume env w : tally f (resume env w) = tally f w.
Proof. unfold tally. rewrite resume_events. reflexivity. Qed.

Lemma keeps_ret A (a : A) : Keeps f (ret a).
Proof. intros w. reflexivity. Qed.

Lemma keeps_throw A e : Keeps f (@throw A e).
Proof. intros w. reflexivity. Qed.

Lemma keeps_diverge A : Keeps f (@diverge A).
Proof. intros w. reflexivity. Qed.

Lemma keeps_read A (g : World -> Outcome A) : Keeps f (fun w => (g w, w)).
Proof. intros w. reflexivity. Qed.

Lemma keeps_bind A B (m : M A) (k : A -> M B) :
  Keeps f m -> (forall a, Keeps f (k a)) -> Keeps f (bind m k).
Proof.
  intros Hm Hk w. unfold bind. specialize (Hm w).
  destruct (m w) as [[a|e|] w']; cbn in *; [|exact Hm..].
  rewrite Hk. exact Hm.
Qed.

Lemma keeps_tryCatch A (m : M A) (h : JsError -> M A) :
  Keeps f m -> (forall e, Keeps f (h e)) -> Keeps f (tryCatch m h).
Proof.
  intros Hm Hh w. unfold tryCatch. specialize (Hm w).
  destruct (m w) as [[a|e|] w']; cbn in *; [exact Hm| |exact Hm].
  rewrite Hh. exact Hm.
Qed.

Lemma keeps_tryFinally A (m : M A) (fin : M unit) :
  Keeps f m -> Keeps f fin -> Keeps f (tryFinally m fin).
Proof.
  intros Hm Hfin w. unfold tryFinally. specialize (Hm w).
  destruct (m w) as [[a|e|] w']; cbn in *; [| |exact Hm];
    specialize (Hfin w'); destruct (fin w') as [[[]|e'|] w'']; cbn in *; congruence.
Qed.

Lemma keeps_modify (g : World -> World) :
  (forall w, events (g w) = events w) -> Keeps f (modify g).
Proof. intros Hg w. unfold tally. cbn. rewrite Hg. reflexivity. Qed.

Lemma keeps_emit e : f e = false -> Keeps f (emit e).
Proof.
  intros He w. unfold emit, modify. cbn [snd].
  rewrite tally_addEvent, He. reflexivity.
Qed.

Lemma keeps_appendLine l : f (EvOutput l) = false -> Keeps f (appendLine l).
Proof. apply keeps_emit. Qed.

Lemma keeps_suspend env : Keeps f (suspend env).
Proof. intros w. apply tally_resume. Qed.

Lemma keeps_sleep env ms : f (EvSleep ms) = false -> Keeps f (sleep env ms).
Proof.
  intros H. unfold sleep.
  apply keeps_bind; [apply keeps_emit; exact H|intros _].
  apply keeps_bind; [apply keeps_modify; reflexivity|intros _].
  apply keeps_suspend.
Qed.

Lemma keeps_stateUpdate k v : f (EvUpdate k v) = false -> Keeps f (stateUpdate k v).
Proof.
  intros H w. unfold stateUpdate, modify. cbn [snd].
  rewrite tally_addEvent, H. reflexivity.
Qed.

Lemma keeps_throwIfCancelled token : Keeps f (throwIfCancelled token).
Proof.
  unfold throwIfCancelled. apply keeps_bind; [apply keeps_read|].
  intros []; [apply keeps_throw|apply keeps_ret].
Qed.

Lemma keeps_await env A (result : nat -> JsError + A) : Keeps f (await env result).
Proof.
  intros w. unfold await. destruct (result (ticks w)); apply tally_resume.
Qed.

Lemma keeps_awaitVoid env result : Keeps f (awaitVoid env result).
Proof. apply keeps_await. Qed.

Lemma keeps_processKill env p s : f (EvKill p s) = false -> Keeps f (processKill env p s).
Proof.
  intros H. unfold processKill. apply keeps_bind; [apply keeps_emit; exact H|intros _].
  intros w. destruct (killResult env (ticks w) p s); reflexivity.
Qed.

End Tally.

(** Breaks a goal [Keeps f m] down along the structure of [m]; the events
    sent out are left to [side]. *)
Ltac keeps_with side :=
  repeat match goal with
    | |- Keeps _ (ret _) => apply keeps_ret
    | |- Keeps _ (throw _) => apply keeps_throw
    | |- Keeps _ diverge => apply keeps_diverge
    | |- Keeps _ (suspend _) => apply keeps_suspend
    | |- Keeps _ (throwIfCancelled _) => apply keeps_throwIfCancelled
    | |- Keeps _ (isCancellationRequested _) => apply keeps_read
    | |- Keeps _ (stateGet _) => apply keeps_read
    | |- Keeps _ performanceNow => apply keeps_read
    | |- Keeps _ (await _ _) => apply keeps_await
    | |- Keeps _ (awaitVoid _ _) => apply keeps_awaitVoid
    | |- Keeps _ (fun w => (_, w)) => apply keeps_read
    | |- Keeps _ (modify _) => apply keeps_modify; reflexivity
    | |- Keeps _ (emit _) => apply keeps_emit; side
    | |- Keeps _ (appendLine _) => apply keeps_appendLine; side
    | |- Keeps _ (sleep _ _) => apply keeps_sleep; side
    | |- Keeps _ (stateUpdate _ _) => apply keeps_stateUpdate; side
    | |- Keeps _ (processKill _ _ _) => apply keeps_processKill; side
    | |- Keeps _ (bind _ _) => apply keeps_bind; [|intros ?]
    | |- Keeps _ (tryCatch _ _) => apply keeps_tryCatch; [|intros ?]
    | |- Keeps _ (tryFinally _ _) => apply keeps_tryFinally
    | |- Keeps _ (match ?x with _ => _ end) => destruct x
    | |- Keeps _ (let _ := _ in _) => cbv zeta
    end.

Section LockTally.

Variable f : Event -> bool.
Hypothesis lock_quiet : forall e, lockTraffic e = true -> f e = false.

Lemma keeps_claimIfFree lockKey v timeout : Keeps f (claimIfFree lockKey v timeout).
Proof.
  intros w. rewrite claimIfFree_run.
  destruct (truthy _); [reflexivity|]. cbn [snd].
  rewrite tally_addEvent, lock_quiet by reflexivity. reflexivity.
Qed.

Lemma keeps_acquireLock env fuel lockKey v timeout :
  Keeps f (acquireLock env fuel lockKey v timeout).
Proof.
  induction fuel as [|fuel IH]; [apply keeps_diverge|].
  cbn [acquireLock]. unfold pollLock.
  keeps_with ltac:(apply lock_quiet; reflexivity);
    [apply keeps_claimIfFree|exact IH].
Qed.

Lemma keeps_releaseLock env lockName lockKey : Keeps f (releaseLock env lockName lockKey).
Proof. unfold releaseLock. keeps_with ltac:(apply lock_quiet; reflexivity). Qed.

Lemma keeps_forgetConfig env configKey config : Keeps f (forgetConfig env configKey config).
Proof. unfold forgetConfig. keeps_with ltac:(apply lock_quiet; reflexivity). Qed.

End LockTally.

Section ProvisioningTally.

Variable f : Event -> bool.
Hypothesis provisioning_quiet : forall e, provisioningTraffic e = true -> f e = false.

Lemma keeps_fetchDownload env host token : Keeps f (fetchDownload env host token).
Proof.
  unfold fetchDownload, downloadLocalApp.
  keeps_with ltac:(apply provisioning_quiet; reflexivity).
Qed.

Lemma keeps_dropOutdated env d c i : Keeps f (dropOutdated env d c i).
Proof.
  unfold dropOutdated.
  keeps_with ltac:(apply provisioning_quiet; reflexivity).
Qed.

Lemma keeps_checkExecutable env i token : Keeps f (checkExecutable env i token).
Proof.
  unfold checkExecutable.
  keeps_with ltac:(apply provisioning_quiet; reflexivity).
Qed.

Lemma keeps_startLocalApp env host i token : Keeps f (startLocalApp env host i token).
Proof.
  unfold startLocalApp, spawnLocalApp.
  keeps_with ltac:(apply provisioning_quiet; reflexivity).
Qed.

Hypothesis pipeline_quiet : forall target, f (EvPipeline target) = false.

Lemma keeps_installLocalApp env r token : Keeps f (installLocalApp env r token).
Proof.
  unfold installLocalApp.
  keeps_with ltac:(first [apply pipeline_quiet|apply provisioning_quiet; reflexivity]).
Qed.

Lemma keeps_installIfMissing env d i installationKey token :
  Keeps f (installIfMissing env d i installationKey token).
Proof.
  unfold installIfMissing.
  keeps_with ltac:(apply provisioning_quiet; reflexivity).
  apply keeps_installLocalApp.
Qed.

Lemma keeps_provision env d i host configKey installationKey token :
  Keeps f (provision env d i host configKey installationKey token).
Proof.
  unfold provision.
  keeps_with ltac:(apply provisioning_quiet; reflexivity);
    auto using keeps_checkExecutable, keeps_installIfMissing, keeps_startLocalApp.
Qed.

Lemma keeps_ensureLocalApp env host configKey installationKey token :
  Keeps f (ensureLocalApp env host configKey installationKey token).
Proof.
  unfold ensureLocalApp.
  keeps_with ltac:(apply provisioning_quiet; reflexivity);
    auto using keeps_fetchDownload, keeps_dropOutdated, keeps_provision.
Qed.

End ProvisioningTally.

(** ** Tallies kept by [withLock] *)

Section WithLockTally.

Variable f : Event -> bool.
Hypothesis lock_quiet : forall e, lockTraffic e = true -> f e = false.

Variable env : Env.
Variable T : Type.
Variable fuel : nat.
Variable lockName : string.
Variable op : nat -> M T.
Variable timeout : Z.
Hypothesis op_keeps : forall token, Keeps f (op token).

Lemma withLock_tally w :
  tally f (snd (withLock env fuel lockName op timeout w)) =
  match fst (withLock env fuel lockName op timeout w) with
  | Diverged =>
      match fst (acquireLock env fuel (lockPrefix +:+ lockName)
                   (lockToken env (lockCount w)) timeout (entering lockName w)) with
      | Returned _ =>
          if f (EvOutput (AcquiredLock lockName)) then S (tally f w) else tally f w
      | _ => tally f w
      end
  | _ => if f (EvOutput (AcquiredLock lockName)) then S (tally f w) else tally f w
  end.
Proof.
  rewrite withLock_run.
  pose proof (keeps_acquireLock f lock_quiet env fuel (lockPrefix +:+ lockName)
                (lockToken env (lockCount w)) timeout (entering lockName w)) as Hacq.
  pose proof (acquireLock_never_throws env fuel (lockPrefix +:+ lockName)
                (lockToken env (lockCount w)) timeout (entering lockName w)) as Hnt.
  destruct (acquireLock env fuel _ _ timeout (entering lockName w)) as [[[]|e|] w1];
    cbn [fst snd] in *.
  - assert (Hent : tally f w1 = tally f w).
    { rewrite Hacq. unfold entering, tally. cbn.
      rewrite lock_quiet by reflexivity. reflexivity. }
    set (w2 := holding lockName _ _ w1).
    assert (Hhold : tally f w2 =
                    if f (EvOutput (AcquiredLock lockName)) then S (tally f w)
                    else tally f w).
    { subst w2. unfold holding, tally. cbn.
      destruct (f (EvOutput (AcquiredLock lockName))); cbn; unfold tally in Hent;
        rewrite Hent; reflexivity. }
    unfold tryFinally. pose proof (op_keeps (tokenSources w1) w2) as Hop.
    destruct (op (tokenSources w1) w2) as [[r|e|] w3]; cbn [fst snd] in *.
    + rewrite releaseLock_run. cbn [fst snd].
      unfold released. rewrite tally_resume, tally_addEvent, lock_quiet by reflexivity.
      unfold tally in *. cbn. rewrite lock_quiet by reflexivity. congruence.
    + rewrite releaseLock_run. cbn [fst snd].
      unfold released. rewrite tally_resume, tally_addEvent, lock_quiet by reflexivity.
      unfold tally in *. cbn. rewrite lock_quiet by reflexivity. congruence.
    + congruence.
  - exfalso. exact (Hnt e eq_refl).
  - rewrite Hacq. unfold entering, tally. cbn.
    rewrite lock_quiet by reflexivity. reflexivity.
Qed.

Lemma keeps_withLock :
  f (EvOutput (AcquiredLock lockName)) = false ->
  Keeps f (withLock env fuel lockName op timeout).
Proof.
  intros H w. rewrite withLock_tally, H.
  destruct (fst (withLock env fuel lockName op timeout w)); try reflexivity.
  destruct (fst (acquireLock _ _ _ _ _ _)); reflexivity.
Qed.

End WithLockTally.

(** ** One pass through the loop of [withLocalApp] *)

Lemma probe_run env p w :
  probe env p w =
  (Returned (killResult env (ticks w) p Signal0), addEvent (EvKill p Signal0) w).
Proof.
  unfold probe, tryCatch, bind at 1, processKill, bind at 1.
  cbn [emit modify]. change (ticks (addEvent _ w)) with (ticks w).
  destruct (killResult env (ticks w) p Signal0); reflexivity.
Qed.

Lemma attempt_run env T fuel host gitpodAuthority configKey installationKey
    (op : Operation T) w :
  attempt env fuel host gitpodAuthority configKey installationKey op w =
  match withLock env fuel gitpodAuthority
          (fun token => ensureLocalApp env host configKey installationKey token)
          slowLockTimeout w with
  | (Returned config, w1) =>
      match op (clientOf config) config (ticks w1) with
      | inr result => (Returned (Finish result), resume env w1)
      | inl e =>
          match killResult env (S (ticks w1)) (pid config) Signal0 with
          | None =>
              if isTransient e then (Returned Retry, retried env config e w1)
              else (Thrown e, probed env config w1)
          | Some e2 =>
              (withLock env fuel gitpodAuthority
                 (fun _ => forgetConfig env configKey config) fastLockTimeout ;;;
               ret Restart) (foundDead env config e e2 w1)
          end
      end
  | (Thrown e, w1) => (Thrown e, w1)
  | (Diverged, w1) => (Diverged, w1)
  end.
Proof.
  unfold attempt, bind at 1.
  destruct (withLock env fuel gitpodAuthority _ slowLockTimeout w)
    as [[config|e|] w1]; [|reflexivity..].
  unfold tryCatch, bind at 1, await. fold (clientOf config).
  destruct (op (clientOf config) config (ticks w1)) as [e|result]; [|reflexivity].
  unfold bind at 1. rewrite probe_run. rewrite resume_ticks.
  fold (probed env config w1).
  destruct (killResult env (S (ticks w1)) (pid config) Signal0) as [e2|].
  - reflexivity.
  - destruct (isTransient e); reflexivity.
Qed.

Lemma withLock_events_grow env T fuel lockName (op : nat -> M T) timeout :
  (forall token w, events w `suffix_of` events (snd (op token w))) ->
  forall w, events w `suffix_of` events (snd (withLock env fuel lockName op timeout w)).
Proof.
  intros Hop w. rewrite withLock_run.
  assert (Hacq : forall fuel' w0,
            events w0 `suffix_of`
            events (snd (acquireLock env fuel' (lockPrefix +:+ lockName)
                           (lockToken env (lockCount w)) timeout w0))).
  { induction fuel' as [|fuel' IH]; intros w0; [reflexivity|].
    assert (Hround : events w0 `suffix_of`
                     events (afterRound env (lockPrefix +:+ lockName)
                               (lockToken env (lockCount w)) timeout w0)).
    { rewrite afterRound_events. apply suffix_cons_r, suffix_app_r. reflexivity. }
    rewrite acquireLock_step. case_bool_decide; [exact Hround|].
    etrans; [exact Hround|apply IH]. }
  pose proof (Hacq fuel (entering lockName w)) as H1.
  assert (H0 : events w `suffix_of` events (entering lockName w))
    by (apply suffix_cons_r; reflexivity).
  destruct (acquireLock env fuel _ _ timeout (entering lockName w)) as [[[]|e|] w1];
    cbn [snd] in H1; [|etrans; eassumption..].
  pose proof (Hop (tokenSources w1)
                (holding lockName (lockPrefix +:+ lockName)
                   (lockToken env (lockCount w)) w1)) as H2.
  assert (H3 : events w `suffix_of`
               events (holding lockName (lockPrefix +:+ lockName)
                         (lockToken env (lockCount w)) w1)).
  { cbn [holding events]. apply suffix_cons_r. etrans; eassumption. }
  unfold tryFinally.
  destruct (op (tokenSources w1) _) as [[r|e|] w2]; cbn [snd] in H2;
    try rewrite releaseLock_run; cbn [snd]; try rewrite released_events;
    repeat apply suffix_cons_r; etrans; eassumption.
Qed.

Lemma forgetConfig_events_grow env configKey config w :
  events w `suffix_of` events (snd (forgetConfig env configKey config w)).
Proof.
  unfold forgetConfig, bind at 1, stateGet.
  destruct (sameJson (globalState w !! configKey) config); [|reflexivity].
  change (events w `suffix_of`
          events (resume env (addEvent (EvUpdate configKey None)
                                (setStore (delete configKey (globalState w)) w)))).
  rewrite resume_events. apply suffix_cons_r. reflexivity.
Qed.

(** Whatever the handler of a failed operation goes on to do, the
    zero-signal probe is the first thing it sends out. *)
Lemma probe_starts_handler env T fuel (gitpodAuthority configKey : string)
    (config : LocalAppConfig) (e : JsError) (w : World) :
  (EvKill (pid config) Signal0 :: events w) `suffix_of`
  events (snd (match killResult env (S (ticks w)) (pid config) Signal0 with
               | None =>
                   if isTransient e
                   then (@Returned (Next T) Retry, retried env config e w)
                   else (Thrown e, probed env config w)
               | Some e2 =>
                   (withLock env fuel gitpodAuthority
                      (fun _ => forgetConfig env configKey config) fastLockTimeout ;;;
                    ret Restart) (foundDead env config e e2 w)
               end)).
Proof.
  assert (Hprobed : events (probed env config w)
                    = EvKill (pid config) Signal0 :: events w).
  { unfold probed. cbn. rewrite resume_events. reflexivity. }
  destruct (killResult env (S (ticks w)) (pid config) Signal0) as [e2|].
  - unfold bind.
    pose proof (withLock_events_grow env unit fuel gitpodAuthority
                  (fun _ => forgetConfig env configKey config) fastLockTimeout) as Hgrow.
    assert (Hdead : (EvKill (pid config) Signal0 :: events w) `suffix_of`
                    events (foundDead env config e e2 w)).
    { unfold foundDead. cbn [addEvent events]. rewrite Hprobed.
      do 3 apply suffix_cons_r. reflexivity. }
    specialize (Hgrow (fun _ => forgetConfig_events_grow env configKey config)
                      (foundDead env config e e2 w)).
    destruct (withLock env fuel gitpodAuthority _ fastLockTimeout _) as [[[]|e3|] w2];
      cbn [snd ret] in *; etrans; eassumption.
  - destruct (isTransient e); cbn [snd]; unfold retried.
    + rewrite resume_events. cbn [advance addEvent events]. rewrite Hprobed.
      do 3 apply suffix_cons_r. reflexivity.
    + rewrite Hprobed. reflexivity.
Qed.

(** C10: when the store holds a running config for the host once the
    fetch has settled, and no upgrade invalidates it (there is no
    installation record, or the fetch failed, brought no tag, or brought
    the tag of the record), [ensureLocalApp] returns that config having
    done nothing but the fetch: no signal is sent to its process, the
    installation is not checked, nothing is spawned, the store is not
    written.  The zero-signal probe comes later, in the pass of
    [withLocalApp]: not at all when the operation succeeds, and first
    thing when it fails. *)
Theorem ensureLocalApp_returns_cached_config env host configKey installationKey
    token (w : World) (c : LocalAppConfig) :
  let w1 := afterFetch env host w in
  let d := downloadSeen env host token w in
  asConfig (globalState w1 !! configKey) = Some c ->
  (forall i, asInstallation (globalState w1 !! installationKey) = Some i ->
     (exists e, d = inl e) \/
     (exists r, d = inr r /\ (headerEtag r = None \/ headerEtag r = etag i))) ->
  ensureLocalApp env host configKey installationKey token w = (Returned c, w1) /\
  events w1 =
    EvFetch (downloadUriOf env host)
    :: EvOutput (FetchingFrom (downloadUriOf env host)) :: events w /\
  globalState w1 = interfere env (ticks w) (globalState w) /\
  (forall T fuel (op : Operation T) w0 config w2,
     withLock env fuel (uriAuthority env host)
       (fun token => ensureLocalApp env host ("config/" +:+ uriAuthority env host)
                       ("installation/" +:+ uriAuthority env host) token)
       slowLockTimeout w0 = (Returned config, w2) ->
     match op (clientOf config) config (ticks w2) with
     | inr result =>
         pass env fuel host op w0 = (Returned (Finish result), resume env w2) /\
         events (resume env w2) = events w2
     | inl e =>
         (EvKill (pid config) Signal0 :: events w2) `suffix_of`
         events (snd (pass env fuel host op w0))
     end).
Proof.
  intros w1 d Hc Hi.
  split; [|split; [apply afterFetch_events|split; [apply afterFetch_store|]]].
  2:{ intros T fuel op w0 config w2 Hlock.
      pose proof (attempt_run env T fuel host (uriAuthority env host)
                    ("config/" +:+ uriAuthority env host)
                    ("installation/" +:+ uriAuthority env host) op w0) as Hrun.
      fold (pass env fuel host op w0) in Hrun. rewrite Hlock in Hrun.
      destruct (op (clientOf config) config (ticks w2)) as [e|result].
      - rewrite Hrun. apply probe_starts_handler.
      - split; [exact Hrun|apply resume_events]. }
  rewrite ensureLocalApp_run. cbn zeta. fold w1 d.
  rewrite dropOutdated_current.
  - cbn [fst]. rewrite Hc. reflexivity.
  - intros inst Hinst. apply isOutdated_no_upgrade. apply Hi. exact Hinst.
Qed.

Lemma ensureLocalApp_returns_cached_config_witness :
  fst (ensureLocalApp (hostEnv undisturbed offline allDead) "https://gitpod.io"
         "config/gitpod.io" "installation/gitpod.io" 0 provisionedWorld)
    = Returned cachedConfig /\
  events (snd (ensureLocalApp (hostEnv undisturbed offline allDead) "https://gitpod.io"
                 "config/gitpod.io" "installation/gitpod.io" 0 provisionedWorld))
    = [EvFetch "https://gitpod.io/static/bin/gitpod-local-companion-linux";
       EvOutput (FetchingFrom "https://gitpod.io/static/bin/gitpod-local-companion-linux")].
Proof.
  destruct (ensureLocalApp_returns_cached_config
              (hostEnv undisturbed offline allDead) "https://gitpod.io"
              "config/gitpod.io" "installation/gitpod.io" 0 provisionedWorld cachedConfig)
    as (Hrun & Hev & _ & _).
  - vm_compute; reflexivity.
  - intros i _. left. exists (Error "request failed: ENOTFOUND").
    vm_compute; reflexivity.
  - rewrite Hrun. split; [reflexivity|]. cbn [snd]. rewrite Hev.
    vm_compute; reflexivity.
Defined.

Lemma restart_line_lock_quiet e : lockTraffic e = true -> isRestartLine e = false.
Proof. destruct e as [[]| | | | | | | | | | |]; cbn; congruence. Qed.

Lemma restart_line_provisioning_quiet e :
  provisioningTraffic e = true -> isRestartLine e = false.
Proof. destruct e as [[]| | | | | | | | | | |]; cbn; congruence. Qed.





Lemma pipeline_lock_quiet e : lockTraffic e = true -> isPipeline e = false.
Proof. destruct e as [[]| | | | | | | | | | |]; cbn; congruence. Qed.

Lemma pipeline_provisioning_quiet e :
  provisioningTraffic e = true -> isPipeline e = false.
Proof. destruct e as [[]| | | | | | | | | | |]; cbn; congruence. Qed.

Section PassTally.

Variable env : Env.
Variable T : Type.
Variable fuel : nat.
Variable host : string.
Variable op : Operation T.

(** A pass writes "restarting the local app..." once when it ends in the
    restart branch, and not at all when it returns or retries. *)
Lemma pass_restarts w :
  match fst (pass env fuel host op w) with
  | Returned Restart =>
      tally isRestartLine (snd (pass env fuel host op w)) = S (tally isRestartLine w)
  | Returned _ =>
      tally isRestartLine (snd (pass env fuel host op w)) = tally isRestartLine w
  | _ =>
      tally isRestartLine (snd (pass env fuel host op w)) <= S (tally isRestartLine w)
  end%nat.
Proof.
  unfold pass. rewrite attempt_run.
  pose proof (keeps_withLock isRestartLine restart_line_lock_quiet env _ fuel
                (uriAuthority env host)
                (fun token => ensureLocalApp env host
                                ("config/" +:+ uriAuthority env host)
                                ("installation/" +:+ uriAuthority env host) token)
                slowLockTimeout
                (fun token => keeps_ensureLocalApp isRestartLine
                                restart_line_provisioning_quiet (fun _ => eq_refl)
                                env host _ _ token)
                eq_refl w) as H1.
  destruct (withLock env fuel _ _ slowLockTimeout w) as [[config|e|] w1];
    cbn [fst snd] in *; [|lia..].
  destruct (op (clientOf config) config (ticks w1)) as [e|result]; cbn [fst snd].
  2:{ rewrite tally_resume. exact H1. }
  destruct (killResult env (S (ticks w1)) (pid config) Signal0) as [e2|].
  - unfold bind.
    pose proof (keeps_withLock isRestartLine restart_line_lock_quiet env _ fuel
                  (uriAuthority env host)
                  (fun _ => forgetConfig env ("config/" +:+ uriAuthority env host) config)
                  fastLockTimeout
                  (fun _ => keeps_forgetConfig isRestartLine restart_line_lock_quiet
                              env _ config)
                  eq_refl (foundDead env config e e2 w1)) as H2.
    assert (H3 : tally isRestartLine (foundDead env config e e2 w1)
                 = S (tally isRestartLine w)).
    { unfold foundDead, probed. rewrite !tally_addEvent. cbn.
      rewrite tally_resume. congruence. }
    destruct (withLock env fuel _ _ fastLockTimeout _) as [[[]|e3|] w2];
      unfold ret; cbn [fst snd] in *; lia.
  - destruct (isTransient e); cbn [fst snd].
    + unfold retried, probed. rewrite tally_resume. unfold tally in *. cbn.
      rewrite resume_events. exact H1.
    + unfold probed. rewrite tally_addEvent. cbn. rewrite tally_resume. lia.
Qed.



(** A pass ends in the restart branch only when the operation failed and
    the zero-signal probe found no process. *)
Lemma pass_restart_dead w :
  fst (pass env fuel host op w) = Returned Restart ->
  exists config w1 e e2,
    withLock env fuel (uriAuthority env host)
      (fun token => ensureLocalApp env host ("config/" +:+ uriAuthority env host)
                      ("installation/" +:+ uriAuthority env host) token)
      slowLockTimeout w = (Returned config, w1) /\
    op (clientOf config) config (ticks w1) = inl e /\
    killResult env (S (ticks w1)) (pid config) Signal0 = Some e2 /\
    pass env fuel host op w =
      (withLock env fuel (uriAuthority env host)
         (fun _ => forgetConfig env ("config/" +:+ uriAuthority env host) config)
         fastLockTimeout ;;; ret Restart) (foundDead env config e e2 w1).
Proof.
  unfold pass. rewrite attempt_run.
  destruct (withLock env fuel _ _ slowLockTimeout w) as [[config|e|] w1];
    cbn [fst]; [|discriminate..].
  destruct (op (clientOf config) config (ticks w1)) as [e|result] eqn:Hop;
    [|discriminate].
  destruct (killResult env (S (ticks w1)) (pid config) Signal0) as [e2|] eqn:Hkill.
  - intros _. exists config, w1, e, e2. repeat split; assumption.
  - destruct (isTransient e); discriminate.
Qed.


End PassTally.

(** ** The loop of [withLocalApp] *)

Section Loop.

Variable env : Env.
Variable T : Type.
Variable fuel : nat.
Variable host : string.
Variable op : Operation T.

Lemma loopOf_step rounds ra w :
  loopOf env (S rounds) fuel host op ra w =
  if Nat.ltb ra 5 then
    match pass env fuel host op w with
    | (Returned (Finish result), w') => (Returned result, w')
    | (Returned Retry, w') => loopOf env rounds fuel host op ra w'
    | (Returned Restart, w') => loopOf env rounds fuel host op (S ra) w'
    | (Thrown e, w') => (Thrown e, w')
    | (Diverged, w') => (Diverged, w')
    end
  else (Thrown (Error "failed to access the local app"), w).
Proof.
  unfold loopOf, pass. cbn [withLocalAppLoop].
  destruct (Nat.ltb ra 5); [|reflexivity].
  unfold bind. destruct (attempt env fuel host _ _ _ op w) as [[[r| |]|e|] w'];
    reflexivity.
Qed.

Lemma loopOf_exhausted rounds ra w :
  (5 <= ra)%nat ->
  loopOf env rounds fuel host op ra w
  = (Thrown (Error "failed to access the local app"), w).
Proof.
  intros H. unfold loopOf.
  assert (Nat.ltb ra 5 = false) as Hlt by (apply Nat.ltb_ge; exact H).
  destruct rounds; cbn [withLocalAppLoop]; rewrite Hlt; reflexivity.
Qed.

Lemma loopOf_restarts_bound rounds : forall ra w,
  (ra <= 5)%nat ->
  (tally isRestartLine (snd (loopOf env rounds fuel host op ra w)) + ra
   <= tally isRestartLine w + 5)%nat.
Proof.
  induction rounds as [|rounds IH]; intros ra w Hra.
  - unfold loopOf. cbn [withLocalAppLoop].
    destruct (Nat.ltb ra 5); cbn; lia.
  - rewrite loopOf_step. destruct (Nat.ltb ra 5) eqn:Hlt; [|cbn; lia].
    apply Nat.ltb_lt in Hlt.
    pose proof (pass_restarts env T fuel host op w) as Hp.
    destruct (pass env fuel host op w) as [[[r| |]|e|] w']; cbn [fst snd] in *.
    + lia.
    + specialize (IH ra w' Hra). lia.
    + specialize (IH (S ra) w' ltac:(lia)). lia.
    + lia.
    + lia.
Qed.

Lemma worldAfter_shift j w :
  worldAfter env fuel host op (S j) w
  = worldAfter env fuel host op j (snd (pass env fuel host op w)).
Proof.
  unfold worldAfter.
  exact (Nat.iter_succ_r j (fun w => snd (pass env fuel host op w)) w).
Qed.

Lemma loopOf_restart_run k : forall rounds ra w,
  (forall j, (j < k)%nat ->
     fst (pass env fuel host op (worldAfter env fuel host op j w)) = Returned Restart) ->
  (ra + k <= 5)%nat ->
  loopOf env (k + rounds) fuel host op ra w
  = loopOf env rounds fuel host op (ra + k) (worldAfter env fuel host op k w).
Proof.
  induction k as [|k IH]; intros rounds ra w H Hra.
  - cbn. rewrite Nat.add_0_r. reflexivity.
  - cbn [Nat.add]. rewrite loopOf_step.
    assert (Nat.ltb ra 5 = true) as -> by (apply Nat.ltb_lt; lia).
    pose proof (H 0%nat ltac:(lia)) as H0. cbn in H0.
    rewrite worldAfter_shift.
    destruct (pass env fuel host op w) as [[[r| |]|e|] w'] eqn:Hp;
      try discriminate H0.
    cbn [snd]. rewrite IH.
    + f_equal. lia.
    + intros j Hj. specialize (H (S j) ltac:(lia)).
      rewrite worldAfter_shift, Hp in H. exact H.
    + lia.
Qed.


Lemma worldAfter_restarts k : forall w,
  (forall j, (j < k)%nat ->
     fst (pass env fuel host op (worldAfter env fuel host op j w)) = Returned Restart) ->
  tally isRestartLine (worldAfter env fuel host op k w)
  = (tally isRestartLine w + k)%nat.
Proof.
  induction k as [|k IH]; intros w H.
  - cbn. lia.
  - change (worldAfter env fuel host op (S k) w)
      with (snd (pass env fuel host op (worldAfter env fuel host op k w))).
    pose proof (pass_restarts env T fuel host op (worldAfter env fuel host op k w)) as Hp.
    rewrite (H k ltac:(lia)) in Hp. rewrite Hp, IH; [lia|].
    intros j Hj. apply H. lia.
Qed.


End Loop.

(** C1: a call of [withLocalApp] writes "restarting the local app..." at
    most five times; a pass that ends in the restart branch, which takes
    a failed operation and a failed zero-signal probe, writes it once and
    goes on with the counter one higher; and when the first five passes
    all end there, the call throws [Error('failed to access the local
    app')] after exactly five restarts. *)
Theorem withLocalApp_restart_budget env T rounds fuel host (op : Operation T)
    (w : World) :
  (tally isRestartLine (snd (withLocalApp env rounds fuel host op w))
   <= tally isRestartLine w + 5)%nat /\
  (forall ra w1,
     (ra < 5)%nat ->
     fst (pass env fuel host op w1) = Returned Restart ->
     tally isRestartLine (snd (pass env fuel host op w1))
       = S (tally isRestartLine w1) /\
     loopOf env (S rounds) fuel host op ra w1
       = loopOf env rounds fuel host op (S ra) (snd (pass env fuel host op w1)) /\
     exists config w2 e e2,
       withLock env fuel (uriAuthority env host)
         (fun token => ensureLocalApp env host ("config/" +:+ uriAuthority env host)
                         ("installation/" +:+ uriAuthority env host) token)
         slowLockTimeout w1 = (Returned config, w2) /\
       op (clientOf config) config (ticks w2) = inl e /\
       killResult env (S (ticks w2)) (pid config) Signal0 = Some e2) /\
  ((forall j, (j < 5)%nat ->
      fst (pass env fuel host op (worldAfter env fuel host op j w)) = Returned Restart) ->
   (5 <= rounds)%nat ->
   withLocalApp env rounds fuel host op w
     = (Thrown (Error "failed to access the local app"),
        worldAfter env fuel host op 5 w) /\
   tally isRestartLine (worldAfter env fuel host op 5 w)
     = (tally isRestartLine w + 5)%nat).
Proof.
  split; [|split].
  - pose proof (loopOf_restarts_bound env T fuel host op rounds 0 w ltac:(lia)) as H.
    unfold withLocalApp. fold (loopOf env rounds fuel host op 0). lia.
  - intros ra w1 Hra Hdead. split; [|split].
    + pose proof (pass_restarts env T fuel host op w1) as H.
      rewrite Hdead in H. exact H.
    + rewrite loopOf_step.
      assert (Nat.ltb ra 5 = true) as -> by (apply Nat.ltb_lt; exact Hra).
      destruct (pass env fuel host op w1) as [[[r| |]|e|] w']; try discriminate Hdead.
      reflexivity.
    + destruct (pass_restart_dead env T fuel host op w1 Hdead)
        as (config & w2 & e & e2 & H1 & H2 & H3 & _).
      exists config, w2, e, e2. repeat split; assumption.
  - intros Hdead Hrounds. split.
    + unfold withLocalApp. fold (loopOf env rounds fuel host op 0).
      replace rounds with (5 + (rounds - 5))%nat by lia.
      rewrite (loopOf_restart_run env T fuel host op 5 (rounds - 5) 0 w Hdead ltac:(lia)).
      apply loopOf_exhausted. lia.
    + apply worldAfter_restarts. exact Hdead.
Qed.

Lemma withLocalApp_restart_budget_witness :
  fst (withLocalApp deadEnv 5 1 "https://gitpod.io" failingOp emptyWorld)
    = Thrown (Error "failed to access the local app") /\
  tally isRestartLine (snd (withLocalApp deadEnv 5 1 "https://gitpod.io" failingOp
                              emptyWorld)) = 5%nat.
Proof.
  destruct (withLocalApp_restart_budget deadEnv string 5 1 "https://gitpod.io"
              failingOp emptyWorld) as (_ & _ & H).
  destruct H as [Hrun Htally].
  - intros j Hj.
    destruct j as [|[|[|[|[|j]]]]]; [vm_compute; reflexivity..|lia].
  - lia.
  - rewrite Hrun. split; [reflexivity|]. cbn [snd]. rewrite Htally. reflexivity.
Defined.






(** ** Installations *)

Lemma afterFetch_pipelines env host w :
  tally isPipeline (afterFetch env host w) = tally isPipeline w.
Proof. unfold tally. rewrite afterFetch_events. reflexivity. Qed.

Lemma afterFetch_cancelled env host w token :
  token ∈ cancelledTokens w -> token ∈ cancelledTokens (afterFetch env host w).
Proof. intros H. unfold afterFetch. apply resume_cancelled. exact H. Qed.

Lemma checkExecutable_valid env i token w :
  accessResult env (ticks w) (path i) = true ->
  checkExecutable env (Some i) token w =
  (Returned (if bool_decide (token ∈ cancelledTokens
                               (resume env (addEvent (EvAccess (path i)) w)))
             then None else Some i),
   resume env (addEvent (EvAccess (path i)) w)).
Proof.
  intros Hok. unfold checkExecutable, tryCatch, bind at 1 2, await.
  cbn [emit modify]. change (ticks (addEvent _ w)) with (ticks w). rewrite Hok.
  unfold bind, throwIfCancelled, bind, isCancellationRequested.
  destruct (bool_decide _); reflexivity.
Qed.

(** With its token cancelled, [installLocalApp] throws before it streams
    anything. *)
Lemma installLocalApp_cancelled env r token w :
  token ∈ cancelledTokens w ->
  exists e w',
    installLocalApp env r token w = (Thrown e, w') /\
    tally isPipeline w' = tally isPipeline w.
Proof.
  intros Hc.
  set (ext := match platform env with Win32 => Some ".exe" | _ => None end).
  set (w1 := resume env (addEvent (EvTmpFile "gitpod-local-companion" ext) w)).
  assert (H1 : token ∈ cancelledTokens w1) by (apply resume_cancelled; exact Hc).
  assert (T1 : tally isPipeline w1 = tally isPipeline w).
  { subst w1. rewrite tally_resume. reflexivity. }
  destruct (tmpFileResult env (ticks w)) as [e|file] eqn:Htmp.
  - exists e, (addEvent (EvOutput (InstallFailed e)) w1). split.
    + unfold installLocalApp, tryCatch, bind at 1 2, await.
      cbn [emit modify]. cbv zeta. fold ext.
      change (ticks (addEvent _ w)) with (ticks w). rewrite Htmp. reflexivity.
    + rewrite tally_addEvent. exact T1.
  - exists (Error "cancelled"), (addEvent (EvOutput (InstallFailed (Error "cancelled"))) w1).
    split.
    + unfold installLocalApp, tryCatch, bind at 1 2, await.
      cbn [emit modify]. cbv zeta. fold ext.
      change (ticks (addEvent _ w)) with (ticks w). rewrite Htmp.
      unfold bind at 1, throwIfCancelled, bind at 1, isCancellationRequested.
      fold w1. rewrite bool_decide_eq_true_2 by exact H1. reflexivity.
    + rewrite tally_addEvent. exact T1.
Qed.


Lemma downloadSeen_cases env host token w r :
  fetchResult env (ticks w) (downloadUriOf env host) = inr r ->
  (exists e, downloadSeen env host token w = inl e) \/
  downloadSeen env host token w = inr r.
Proof.
  intros H. unfold downloadSeen. rewrite H.
  destruct (bool_decide _); [left; eauto|].
  destruct (ok r); [right; reflexivity|left; eauto].
Qed.

(** C5: when the fetch brings the tag of the installation record and the
    file of the record is executable, [ensureLocalApp] streams no download
    body to disk, whether a running config is cached or not and whether
    or not its token gets cancelled on the way; the fetch itself is sent
    on every call. *)
Theorem ensureLocalApp_keeps_valid_installation env host configKey installationKey
    token (w : World) (r : Response) (i : LocalAppInstallation) :
  fetchResult env (ticks w) (downloadUriOf env host) = inr r ->
  asInstallation (globalState (afterFetch env host w) !! installationKey) = Some i ->
  headerEtag r = etag i ->
  accessResult env (S (ticks w)) (path i) = true ->
  tally isPipeline (snd (ensureLocalApp env host configKey installationKey token w))
  = tally isPipeline w.
Proof.
  intros Hfetch Hinst Htag Hexec.
  rewrite ensureLocalApp_run. cbv zeta. rewrite Hinst.
  rewrite dropOutdated_current.
  2:{ intros inst [= <-]. apply isOutdated_no_upgrade.
      destruct (downloadSeen_cases env host token w r Hfetch) as [He|Hr]; [left; exact He|].
      right. exists r. split; [exact Hr|]. right. exact Htag. }
  cbn [fst snd].
  destruct (asConfig (globalState (afterFetch env host w) !! configKey)) as [c|].
  { cbn [snd]. apply afterFetch_pipelines. }
  unfold provision, bind at 1.
  rewrite checkExecutable_valid by (rewrite afterFetch_ticks; exact Hexec).
  set (w2 := resume env (addEvent (EvAccess (path i)) (afterFetch env host w))).
  assert (T2 : tally isPipeline w2 = tally isPipeline w).
  { subst w2. rewrite tally_resume, tally_addEvent. apply afterFetch_pipelines. }
  case_bool_decide as Hcancel.
  - unfold bind at 1, installIfMissing.
    destruct (downloadSeen env host token w) as [e|r'].
    + cbn [snd]. exact T2.
    + unfold bind at 1.
      destruct (installLocalApp_cancelled env r' token w2 Hcancel) as (e & w3 & -> & T3).
      cbn [snd]. congruence.
  - rewrite <- T2.
    apply (keeps_bind isPipeline _ _ (installIfMissing env _ (Some i) installationKey token)).
    + intros w'. reflexivity.
    + intros a.
      keeps_with ltac:(reflexivity).
      apply keeps_startLocalApp. exact pipeline_provisioning_quiet.
Qed.

Lemma ensureLocalApp_keeps_valid_installation_witness :
  tally isPipeline
    (snd (ensureLocalApp quietEnv "https://gitpod.io" "config/gitpod.io"
            "installation/gitpod.io" 0 provisionedWorld))
  = tally isPipeline provisionedWorld.
Proof.
  apply (ensureLocalApp_keeps_valid_installation quietEnv "https://gitpod.io"
           "config/gitpod.io" "installation/gitpod.io" 0 provisionedWorld
           (mkResponse true 200 "OK" (Some "v1")
              "https://gitpod.io/static/bin/gitpod-local-companion-linux")
           cachedInstallation).
  - reflexivity.
  - vm_compute; reflexivity.
  - reflexivity.
  - reflexivity.
Defined.



(** ** Concurrent callers *)





Lemma forEach_releaseIfStale_lockCount keys : forall w,
  lockCount (snd (forEach releaseIfStale keys w)) = lockCount w.
Proof.
  induction keys as [|key rest IH]; intros w; [reflexivity|].
  cbn [forEach]. unfold bind at 1. rewrite releaseIfStale_run.
  rewrite IH. destruct (_ && _); reflexivity.
Qed.

Lemma releaseStaleLocks_lockCount w :
  lockCount (snd (releaseStaleLocks w)) = lockCount w.
Proof.
  unfold releaseStaleLocks, bind, stateKeys. apply forEach_releaseIfStale_lockCount.
Qed.



Section Exclusion.

Variable env : Env.
Variable lockName : string.
Variable base : nat.

Lemma callTurn_run timeout s :
  callTurn env lockName timeout s =
  mkSystem
    (snd (claimIfFree (lockKeyOf lockName) (lockToken env (lockCount (world s)))
            timeout (entering lockName (world s))))
    (callers s ++ [mkCaller (lockCount (world s)) timeout Waiting]).
Proof.
  unfold callTurn, bind at 1 2 3. cbn [appendLine emit modify nextLockCount].
  match goal with
  | |- context [claimIfFree ?k ?v timeout ?w0] =>
      change w0 with (entering lockName (world s));
      change v with (lockToken env (lockCount (world s)))
  end.
  rewrite claimIfFree_run. destruct (truthy _); reflexivity.
Qed.






End Exclusion.



(** * Further properties *)

(** ** The sweep and the lock *)

(** X1: sweeping twice in a row leaves the store as sweeping once does. *)
Theorem releaseStaleLocks_idempotent (w : World) :
  globalState (snd (releaseStaleLocks (snd (releaseStaleLocks w))))
  = globalState (snd (releaseStaleLocks w)).
Proof.
  destruct (releaseStaleLocks_run w) as (w1 & Hrun1 & Hclock1 & Hstore1).
  rewrite Hrun1. cbn [snd].
  destruct (releaseStaleLocks_run w1) as (w2 & Hrun2 & _ & Hstore2).
  rewrite Hrun2. cbn [snd].
  apply map_eq. intros k. rewrite Hstore2, Hclock1, Hstore1.
  destruct (startsWith lockPrefix k); cbn [andb]; [|reflexivity].
  destruct (isStale (clock w) (globalState w !! k)) eqn:Hstale.
  - destruct (isStale (clock w) None); reflexivity.
  - rewrite Hstale. reflexivity.
Qed.

Lemma lockKey_under_prefix lockName :
  startsWith lockPrefix (lockKeyOf lockName) = true.
Proof.
  unfold startsWith, lockKeyOf, lockPrefix. cbn.
  destruct lockName; reflexivity.
Qed.

(** X2: a lock record that is stale (not an object, or past its
    deadline) is reclaimed: after a sweep, the next caller writes its own
    record and holds the lock when it wakes up, whoever had it before. *)
Theorem sweep_reclaims_stale_lock env lockName (s : System) (timeout : Z) :
  isStale (clock (world s)) (globalState (world s) !! lockKeyOf lockName) = true ->
  let me := length (callers s) in
  let s' := turn env lockName (Wake me)
              (turn env lockName (Call timeout) (turn env lockName Sweep s)) in
  callers s' !! me = Some (mkCaller (lockCount (world s)) timeout (Holding false)) /\
  globalState (world s') !! lockKeyOf lockName
  = Some (SLock (mkLock (lockToken env (lockCount (world s)))
                        (clock (world s) + timeout + 300))).
Proof.
  intros Hstale me s'. subst s'. cbn [turn].
  destruct (releaseStaleLocks_run (world s)) as (w1 & Hrun & Hclock & Hstore).
  assert (Hcount : lockCount w1 = lockCount (world s)).
  { pose proof (releaseStaleLocks_lockCount (world s)) as H. rewrite Hrun in H. exact H. }
  assert (Hfree : globalState w1 !! lockKeyOf lockName = None).
  { rewrite Hstore, lockKey_under_prefix, Hstale. reflexivity. }
  rewrite Hrun. cbn [snd]. rewrite callTurn_run. cbn [world callers].
  rewrite claimIfFree_run. cbn [entering globalState]. rewrite Hfree.
  cbn [truthy snd]. unfold wakeTurn. cbn [callers world].
  assert (Hme : (callers s ++ [mkCaller (lockCount w1) timeout Waiting])%list !! me
                = Some (mkCaller (lockCount w1) timeout Waiting)).
  { subst me. rewrite lookup_app_r by lia. rewrite Nat.sub_diag. reflexivity. }
  rewrite Hme. cbn [addEvent setStore globalState].
  rewrite lookup_insert_eq. cbn [lockValue value].
  rewrite bool_decide_eq_true_2 by reflexivity.
  cbn [callers world snd appendLine emit modify addEvent globalState setStore].
  rewrite lookup_insert_eq, Hcount. cbn [entering clock]. rewrite Hclock.
  split; [|reflexivity].
  apply list_lookup_insert_eq. rewrite length_app. cbn. subst me. lia.
Qed.

Lemma sweep_reclaims_stale_lock_witness :
  isStale (clock abandonedWorld) (globalState abandonedWorld !! lockKeyOf "gitpod.io")
    = true /\
  callers (turn quietEnv "gitpod.io" (Wake 0)
             (turn quietEnv "gitpod.io" (Call 30000)
                (turn quietEnv "gitpod.io" Sweep (mkSystem abandonedWorld [])))) !! 0%nat
  = Some (mkCaller 0 30000 (Holding false)).
Proof.
  split; [vm_compute; reflexivity|].
  exact (proj1 (sweep_reclaims_stale_lock quietEnv "gitpod.io"
                  (mkSystem abandonedWorld []) 30000 eq_refl)).
Defined.

Lemma afterRound_store_held env lockKey v timeout w :
  truthy (globalState w !! lockKey) = true ->
  globalState (afterRound env lockKey v timeout w)
  = interfere env (ticks w) (globalState w).
Proof.
  intros H. unfold afterRound. rewrite H, resume_store. reflexivity.
Qed.

(** X3: on a lock held by someone else, in an environment that leaves the
    record alone, [withLock] never acquires and never fails: every bound
    on the rounds is used up, the operation is not run, and the record
    stays as it was. *)
Theorem withLock_blocks_on_held_lock env T fuel lockName (op : nat -> M T)
    timeout (w : World) :
  leavesAlone env (lockPrefix +:+ lockName) ->
  truthy (globalState w !! (lockPrefix +:+ lockName)) = true ->
  lockValue (globalState w !! (lockPrefix +:+ lockName))
    <> Some (lockToken env (lockCount w)) ->
  fst (withLock env fuel lockName op timeout w) = Diverged /\
  globalState (snd (withLock env fuel lockName op timeout w))
    !! (lockPrefix +:+ lockName)
  = globalState w !! (lockPrefix +:+ lockName) /\
  tokenSources (snd (withLock env fuel lockName op timeout w)) = tokenSources w.
Proof.
  intros Halone Hheld Hother. rewrite withLock_run.
  set (key := lockPrefix +:+ lockName) in *.
  set (v := lockToken env (lockCount w)) in *.
  assert (Hloop : forall fuel' w0,
            globalState w0 !! key = globalState w !! key ->
            fst (acquireLock env fuel' key v timeout w0) = Diverged /\
            globalState (snd (acquireLock env fuel' key v timeout w0)) !! key
              = globalState w !! key /\
            tokenSources (snd (acquireLock env fuel' key v timeout w0))
              = tokenSources w0).
  { induction fuel' as [|fuel' IH]; intros w0 Hw0; [repeat split; assumption|].
    rewrite acquireLock_step.
    assert (Hround : globalState (afterRound env key v timeout w0) !! key
                     = globalState w !! key).
    { rewrite afterRound_store_held by (rewrite Hw0; exact Hheld).
      rewrite Halone. exact Hw0. }
    rewrite bool_decide_eq_false_2 by (rewrite Hround; exact Hother).
    destruct (IH _ Hround) as (H1 & H2 & H3). repeat split; [exact H1|exact H2|].
    rewrite H3. unfold afterRound. rewrite Hw0, Hheld.
    unfold resume, watchTick. cbn.
    destruct (timerRuns env (ticks w0)); [|reflexivity].
    destruct (watch w0) as [[[k' v'] t']|]; [|reflexivity].
    destruct (bool_decide _); reflexivity. }
  destruct (Hloop fuel (entering lockName w) eq_refl) as (H1 & H2 & H3).
  destruct (acquireLock env fuel key v timeout (entering lockName w)) as [[[]|e|] w1];
    cbn [fst snd] in *; try discriminate H1.
  repeat split; assumption.
Qed.

Lemma withLock_blocks_on_held_lock_witness :
  fst (withLock quietEnv 7 "gitpod.io" usurpedOp 30000 contendedWorld) = Diverged.
Proof.
  apply (withLock_blocks_on_held_lock quietEnv unit 7 "gitpod.io" usurpedOp 30000
           contendedWorld).
  - intros n s. reflexivity.
  - reflexivity.
  - vm_compute. discriminate.
Defined.

(** X4: on a lock that is free, in an environment that leaves the record
    alone during the two waits of a round, [withLock] acquires in its
    first round: the operation starts with the caller's record in the
    store, its deadline [timeout + 300] ms after the call. *)
Theorem withLock_acquires_free_lock env T fuel lockName (op : nat -> M T)
    timeout (w : World) :
  let key := lockPrefix +:+ lockName in
  let v := lockToken env (lockCount w) in
  let w1 := afterRound env key v timeout (entering lockName w) in
  truthy (globalState w !! key) = false ->
  (forall s, interfere env (ticks w) s !! key = s !! key) ->
  (forall s, interfere env (S (ticks w)) s !! key = s !! key) ->
  withLock env (S fuel) lockName op timeout w
    = tryFinally (op (tokenSources w)) (releaseLock env lockName key)
                 (holding lockName key v w1) /\
  globalState (holding lockName key v w1) !! key
    = Some (SLock (mkLock v (clock w + timeout + 300))) /\
  tokenSources w1 = tokenSources w.
Proof.
  intros key v w1 Hfree Hn HSn.
  assert (Hstore : globalState w1 !! key
                   = Some (SLock (mkLock v (clock w + timeout + 300)))).
  { subst w1. unfold afterRound. cbn [entering globalState]. rewrite Hfree.
    rewrite resume_store. cbn [advance addEvent globalState ticks].
    rewrite resume_ticks, resume_store. cbn [addEvent setStore ticks globalState].
    rewrite HSn, Hn, lookup_insert_eq. reflexivity. }
  assert (Htok : tokenSources w1 = tokenSources w).
  { subst w1. unfold afterRound. cbn [entering globalState]. rewrite Hfree.
    unfold resume, watchTick. cbn.
    repeat match goal with
      | |- context [if ?b then _ else _] => destruct b
      | |- context [match ?x with _ => _ end] => destruct x
      end; reflexivity. }
  split; [|split; [exact Hstore|exact Htok]].
  rewrite withLock_run. fold key v. rewrite acquireLock_step. fold w1.
  rewrite bool_decide_eq_true_2 by (rewrite Hstore; reflexivity).
  rewrite Htok. reflexivity.
Qed.

Lemma withLock_acquires_free_lock_witness :
  withLock quietEnv 1 "gitpod.io" usurpedOp 30000 emptyWorld
  = tryFinally (usurpedOp 0) (releaseLock quietEnv "gitpod.io" "lock/gitpod.io")
      (holding "gitpod.io" "lock/gitpod.io" "0c1d/0"
         (afterRound quietEnv "lock/gitpod.io" "0c1d/0" 30000
            (entering "gitpod.io" emptyWorld))).
Proof.
  apply (withLock_acquires_free_lock quietEnv unit 0 "gitpod.io" usurpedOp 30000
           emptyWorld).
  - reflexivity.
  - intros s. reflexivity.
  - intros s. reflexivity.
Defined.

(** ** The lock of the host around [withLocalApp] *)

Lemma resume_watch env w : watch (resume env w) = watch w.
Proof.
  unfold resume, watchTick. cbn.
  destruct (timerRuns env (ticks w)); [|reflexivity].
  destruct (watch w) as [[[k v] t]|]; [|reflexivity]. cbn.
  destruct (bool_decide _); reflexivity.
Qed.

Lemma resume_leaves_free env key w :
  leavesFree env key ->
  globalState w !! key = None -> globalState (resume env w) !! key = None.
Proof. intros Hfree H. rewrite resume_store. apply Hfree. exact H. Qed.

Lemma withLock_leaves_free env T fuel lockName (op : nat -> M T) timeout w :
  leavesFree env (lockPrefix +:+ lockName) ->
  fst (withLock env fuel lockName op timeout w) <> Diverged ->
  globalState (snd (withLock env fuel lockName op timeout w))
    !! (lockPrefix +:+ lockName) = None /\
  watch (snd (withLock env fuel lockName op timeout w)) = None.
Proof.
  intros Hfree Hout. rewrite withLock_run in *.
  pose proof (acquireLock_never_throws env fuel (lockPrefix +:+ lockName)
                (lockToken env (lockCount w)) timeout (entering lockName w)) as Hnt.
  destruct (acquireLock env fuel _ _ timeout (entering lockName w)) as [[[]|e|] w1];
    cbn [fst snd] in *; [|exfalso; exact (Hnt e eq_refl)|contradiction].
  unfold tryFinally in *.
  destruct (op (tokenSources w1) _) as [[r|e|] w2]; cbn [fst snd] in *;
    [| |contradiction];
    rewrite releaseLock_run; cbn [snd]; rewrite released_store;
    (split; [apply Hfree, lookup_delete_eq|]);
    unfold released; rewrite resume_watch; reflexivity.
Qed.

Section NoLeak.

Variable env : Env.
Variable T : Type.
Variable fuel : nat.
Variable host : string.
Variable op : Operation T.
Hypothesis others_leave_free : leavesFree env (lockPrefix +:+ uriAuthority env host).

Lemma pass_leaves_free w :
  fst (pass env fuel host op w) <> Diverged ->
  globalState (snd (pass env fuel host op w))
    !! (lockPrefix +:+ uriAuthority env host) = None /\
  watch (snd (pass env fuel host op w)) = None.
Proof.
  unfold pass. rewrite attempt_run.
  pose proof (withLock_leaves_free env _ fuel (uriAuthority env host)
                (fun token => ensureLocalApp env host
                                ("config/" +:+ uriAuthority env host)
                                ("installation/" +:+ uriAuthority env host) token)
                slowLockTimeout w others_leave_free) as H1.
  destruct (withLock env fuel _ _ slowLockTimeout w) as [[config|e|] w1];
    cbn [fst snd] in *.
  2:{ intros _. apply H1. discriminate. }
  2:{ intros H. contradiction. }
  destruct H1 as [Hs Hw]; [discriminate|].
  assert (Hr : globalState (resume env w1) !! (lockPrefix +:+ uriAuthority env host)
               = None) by (apply resume_leaves_free; assumption).
  destruct (op (clientOf config) config (ticks w1)) as [e|result]; cbn [fst snd].
  2:{ intros _. rewrite resume_watch. split; assumption. }
  destruct (killResult env (S (ticks w1)) (pid config) Signal0) as [e2|].
  - unfold bind.
    pose proof (withLock_leaves_free env _ fuel (uriAuthority env host)
                  (fun _ => forgetConfig env ("config/" +:+ uriAuthority env host) config)
                  fastLockTimeout (foundDead env config e e2 w1) others_leave_free) as H2.
    destruct (withLock env fuel _ _ fastLockTimeout _) as [[[]|e3|] w2];
      unfold ret; cbn [fst snd] in *; intros H; try contradiction;
      apply H2; discriminate.
  - destruct (isTransient e); cbn [fst snd]; intros _.
    + unfold retried. rewrite resume_watch. split.
      * apply resume_leaves_free; [exact others_leave_free|]. exact Hr.
      * cbn. rewrite resume_watch. exact Hw.
    + unfold probed. cbn. rewrite resume_watch. split; assumption.
Qed.

Lemma loopOf_leaves_free rounds : forall ra w,
  ((ra < 5)%nat \/
   (globalState w !! (lockPrefix +:+ uriAuthority env host) = None /\ watch w = None)) ->
  fst (loopOf env rounds fuel host op ra w) <> Diverged ->
  globalState (snd (loopOf env rounds fuel host op ra w))
    !! (lockPrefix +:+ uriAuthority env host) = None /\
  watch (snd (loopOf env rounds fuel host op ra w)) = None.
Proof.
  induction rounds as [|rounds IH]; intros ra w Hstart.
  - unfold loopOf. cbn [withLocalAppLoop].
    destruct (Nat.ltb ra 5) eqn:Hlt; cbn [fst snd]; [intros H; contradiction|].
    intros _. destruct Hstart as [H|H]; [|exact H].
    apply Nat.ltb_ge in Hlt. lia.
  - rewrite loopOf_step. destruct (Nat.ltb ra 5) eqn:Hlt; cbn [fst snd].
    2:{ intros _. destruct Hstart as [H|H]; [|exact H].
        apply Nat.ltb_ge in Hlt. lia. }
    pose proof (pass_leaves_free w) as Hp.
    destruct (pass env fuel host op w) as [[[r| |]|e|] w']; cbn [fst snd] in *.
    + intros _. apply Hp. discriminate.
    + apply IH. right. apply Hp. discriminate.
    + apply IH. right. apply Hp. discriminate.
    + intros _. apply Hp. discriminate.
    + intros H. contradiction.
Qed.

End NoLeak.

(** X5: [withLocalApp] leaves no lock behind.  When nobody else takes the
    lock of the host while it is free, a call that finishes, with a
    result or with an error, ends with the lock key absent and the
    interval timer of the lock cleared. *)
Theorem withLocalApp_releases_lock env T rounds fuel host (op : Operation T)
    (w : World) :
  leavesFree env (lockPrefix +:+ uriAuthority env host) ->
  fst (withLocalApp env rounds fuel host op w) <> Diverged ->
  globalState (snd (withLocalApp env rounds fuel host op w))
    !! (lockPrefix +:+ uriAuthority env host) = None /\
  watch (snd (withLocalApp env rounds fuel host op w)) = None.
Proof.
  intros Hfree. unfold withLocalApp. fold (loopOf env rounds fuel host op 0).
  apply loopOf_leaves_free; [exact Hfree|left; lia].
Qed.

Lemma withLocalApp_releases_lock_witness :
  globalState (snd (withLocalApp quietEnv 3 1 "https://gitpod.io" flakyOp emptyWorld))
    !! "lock/gitpod.io" = None.
Proof.
  apply (withLocalApp_releases_lock quietEnv string 3 1 "https://gitpod.io" flakyOp
           emptyWorld).
  - intros n s H. exact H.
  - vm_compute. discriminate.
Defined.

(** X6: an error of [ensureLocalApp] is an error of [withLocalApp]: the
    call throws it as it is from the first pass, in the world in which
    the lock was released, without calling the operation and without
    probing any process. *)
Theorem withLocalApp_propagates_provisioning_error env T rounds fuel host
    (op : Operation T) (w : World) (e : JsError) (w1 : World) :
  withLock env fuel (uriAuthority env host)
    (fun token => ensureLocalApp env host ("config/" +:+ uriAuthority env host)
                    ("installation/" +:+ uriAuthority env host) token)
    slowLockTimeout w = (Thrown e, w1) ->
  withLocalApp env (S rounds) fuel host op w = (Thrown e, w1).
Proof.
  intros Hlock. unfold withLocalApp. fold (loopOf env (S rounds) fuel host op 0).
  rewrite loopOf_step. cbn [Nat.ltb Nat.leb]. unfold pass.
  rewrite attempt_run, Hlock. reflexivity.
Qed.

Lemma withLocalApp_propagates_provisioning_error_witness :
  fst (withLocalApp offlineEnv 1 1 "https://gitpod.io" failingOp emptyWorld)
  = Thrown (Error "request failed: ENOTFOUND").
Proof.
  rewrite (withLocalApp_propagates_provisioning_error offlineEnv string 0 1
             "https://gitpod.io" failingOp emptyWorld
             (Error "request failed: ENOTFOUND")
             (snd (withLock offlineEnv 1 "gitpod.io"
                     (fun token => ensureLocalApp offlineEnv "https://gitpod.io"
                                     "config/gitpod.io" "installation/gitpod.io" token)
                     slowLockTimeout emptyWorld))).
  - reflexivity.
  - vm_compute; reflexivity.
Defined.

(** X7: an error of the operation other than Unavailable and Unknown,
    met while the zero-signal probe finds the process, is fatal for the
    call: [withLocalApp] throws that very error from the pass in which it
    occurred, without waiting, retrying or restarting. *)
Theorem withLocalApp_propagates_fatal_error env T rounds fuel host
    (op : Operation T) (w : World) (config : LocalAppConfig) (w1 : World)
    (e : JsError) :
  withLock env fuel (uriAuthority env host)
    (fun token => ensureLocalApp env host ("config/" +:+ uriAuthority env host)
                    ("installation/" +:+ uriAuthority env host) token)
    slowLockTimeout w = (Returned config, w1) ->
  op (clientOf config) config (ticks w1) = inl e ->
  killResult env (S (ticks w1)) (pid config) Signal0 = None ->
  code e <> Some Unavailable ->
  code e <> Some Unknown ->
  withLocalApp env (S rounds) fuel host op w = (Thrown e, probed env config w1) /\
  events (probed env config w1) = EvKill (pid config) Signal0 :: events w1.
Proof.
  intros Hlock Hop Hkill H1 H2. split.
  - unfold withLocalApp. fold (loopOf env (S rounds) fuel host op 0).
    rewrite loopOf_step. cbn [Nat.ltb Nat.leb]. unfold pass.
    rewrite attempt_run, Hlock, Hop, Hkill.
    unfold isTransient. rewrite !bool_decide_eq_false_2 by assumption. reflexivity.
  - unfold probed. cbn. rewrite resume_events. reflexivity.
Qed.

Lemma withLocalApp_propagates_fatal_error_witness :
  fst (withLocalApp quietEnv 1 1 "https://gitpod.io" deniedOp provisionedWorld)
  = Thrown (mkError "permission denied" (Some PermissionDenied)).
Proof.
  destruct (withLocalApp_propagates_fatal_error quietEnv string 0 1 "https://gitpod.io"
              deniedOp provisionedWorld cachedConfig
              (snd (withLock quietEnv 1 "gitpod.io"
                      (fun token => ensureLocalApp quietEnv "https://gitpod.io"
                                      "config/gitpod.io" "installation/gitpod.io" token)
                      slowLockTimeout provisionedWorld))
              (mkError "permission denied" (Some PermissionDenied))) as [Hrun _].
  - vm_compute; reflexivity.
  - reflexivity.
  - reflexivity.
  - discriminate.
  - discriminate.
  - rewrite Hrun. reflexivity.
Defined.

(** ** Installing and starting *)

(** X8: an installation that [installLocalApp] returns is the temporary
    file it created, carrying the tag of the response; the body has been
    streamed to that file, the file has been made executable except on
    Windows, the last line written says so, and the token is not
    cancelled. *)
Theorem installLocalApp_returns_streamed_file env (r : Response) (token : nat)
    (w : World) (fresh : LocalAppInstallation) (w' : World) :
  installLocalApp env r token w = (Returned fresh, w') ->
  tmpFileResult env (ticks w) = inr (path fresh) /\
  etag fresh = headerEtag r /\
  In (EvPipeline (path fresh)) (events w') /\
  (exists rest, events w' = EvOutput (Installed fresh) :: rest) /\
  tally isChmod w'
    = (tally isChmod w + match platform env with Win32 => 0 | _ => 1 end)%nat /\
  token ∉ cancelledTokens w'.
Proof.
  unfold installLocalApp, tryCatch, bind, await, awaitVoid, await, throwIfCancelled,
    bind, isCancellationRequested, appendLine, emit, modify, ret, throw.
  cbv zeta. change (ticks (addEvent ?e w)) with (ticks w).
  repeat match goal with
    | |- context [match ?x with _ => _ end] =>
        match x with
        | context [match _ with _ => _ end] => fail 1
        | _ => destruct x eqn:?
        end
    end;
    intros H; try discriminate H; injection H as <- <-;
    (split; [reflexivity|]); (split; [reflexivity|]);
    (split; [cbn; rewrite ?resume_events; cbn; rewrite ?resume_events; cbn; tauto|]);
    (split; [eexists; reflexivity|]);
    (split; [repeat (first [rewrite tally_addEvent|rewrite tally_resume];
                     cbn [isChmod]); lia|]);
    cbn;
    match goal with
    | Hc : bool_decide (token ∈ ?c) = false |- token ∉ ?c =>
        apply bool_decide_eq_false_1 in Hc; exact Hc
    end.
Qed.

Lemma installLocalApp_returns_streamed_file_witness :
  tmpFileResult quietEnv 0 = inr "/tmp/gitpod-0" /\
  In (EvPipeline "/tmp/gitpod-0")
     (events (snd (installLocalApp quietEnv
                     (mkResponse true 200 "OK" (Some "v1") "https://gitpod.io/bin")
                     0 emptyWorld))).
Proof.
  destruct (installLocalApp_returns_streamed_file quietEnv
              (mkResponse true 200 "OK" (Some "v1") "https://gitpod.io/bin") 0
              emptyWorld (mkInstallation "/tmp/gitpod-0" (Some "v1"))
              (snd (installLocalApp quietEnv
                      (mkResponse true 200 "OK" (Some "v1") "https://gitpod.io/bin")
                      0 emptyWorld)))
    as (H1 & _ & H3 & _).
  - vm_compute; reflexivity.
  - split; [exact H1|exact H3].
Defined.

(** X9: a config that [startLocalApp] returns is the one of the process
    it spawned: it names the host asked for and the log next to the
    installation, the process was spawned once, from the file of the
    installation and with the config file and port of the config, and
    the pid is the one the zero-signal probe went through to. *)
Theorem startLocalApp_returns_spawned_config env host (i : LocalAppInstallation)
    (token : nat) (w : World) (c : LocalAppConfig) (w' : World) :
  startLocalApp env host i token w = (Returned c, w') ->
  gitpodHost c = host /\
  logPath c = path i +:+ ".log" /\
  (exists rest,
     events w' =
     EvOutput (Started (pid c) (logPath c))
     :: EvKill (pid c) Signal0
     :: EvSpawn (path i) host (configFile c) (apiPort c) :: rest) /\
  tally isSpawn w' = S (tally isSpawn w).
Proof.
  unfold startLocalApp, spawnLocalApp, tryCatch, bind, await, awaitVoid, await,
    throwIfCancelled, bind, isCancellationRequested, appendLine, emit, modify, ret,
    throw, suspend, modify.
  cbv zeta.
  repeat match goal with
    | |- context [match ?x with _ => _ end] =>
        match x with
        | context [match _ with _ => _ end] => fail 1
        | _ => destruct x eqn:?
        end
    end;
    intros H; try discriminate H; injection H as <- <-;
    (split; [reflexivity|]); (split; [reflexivity|]);
    (split; [eexists; cbn; rewrite ?resume_events; cbn; reflexivity|]);
    repeat (first [rewrite tally_addEvent|rewrite tally_resume
                  |progress change (tally isSpawn (advance ?ms ?w0))
                     with (tally isSpawn w0)];
            cbn [isSpawn]); reflexivity.
Qed.

Lemma startLocalApp_returns_spawned_config_witness :
  logPath firstConfig = "/tmp/gitpod-3.log" /\
  tally isSpawn (snd (startLocalApp quietEnv "https://gitpod.io"
                        (mkInstallation "/tmp/gitpod-3" (Some "v1")) 0 emptyWorld))
  = 1%nat.
Proof.
  split; [reflexivity|].
  destruct (startLocalApp_returns_spawned_config quietEnv "https://gitpod.io"
              (mkInstallation "/tmp/gitpod-3" (Some "v1")) 0 emptyWorld
              (mkConfig "https://gitpod.io" "/tmp/gitpod-0" 40000 1002 "/tmp/gitpod-3.log")
              (snd (startLocalApp quietEnv "https://gitpod.io"
                      (mkInstallation "/tmp/gitpod-3" (Some "v1")) 0 emptyWorld)))
    as (_ & _ & _ & H).
  - vm_compute; reflexivity.
  - rewrite H. reflexivity.
Defined.

(** X10: [installLocalApp] and [startLocalApp] write every failure to the
    output channel and throw it on as it is: when one of them throws, the
    line it wrote last carries the error thrown. *)
Theorem install_and_start_log_failures env host (r : Response)
    (i : LocalAppInstallation) (token : nat) (w : World) (e : JsError) (w' : World) :
  (installLocalApp env r token w = (Thrown e, w') ->
   exists rest, events w' = EvOutput (InstallFailed e) :: rest) /\
  (startLocalApp env host i token w = (Thrown e, w') ->
   exists rest, events w' = EvOutput (StartFailed e) :: rest).
Proof.
  split.
  - unfold installLocalApp, tryCatch.
    match goal with |- context [match ?body w with _ => _ end] =>
      destruct (body w) as [[a|e0|] w0] end;
      intros H; try discriminate H.
    unfold bind, appendLine, emit, modify, throw in H. injection H as <- <-.
    eexists. reflexivity.
  - unfold startLocalApp, tryCatch.
    match goal with |- context [match ?body w with _ => _ end] =>
      destruct (body w) as [[a|e0|] w0] end;
      intros H; try discriminate H.
    unfold bind, appendLine, emit, modify, throw in H. injection H as <- <-.
    eexists. reflexivity.
Qed.

Lemma install_and_start_log_failures_witness :
  exists rest,
    events (snd (startLocalApp (hostEnv undisturbed (serves "v1") allAlive)
                   "https://gitpod.io" cachedInstallation 0
                   (cancelToken 0 emptyWorld)))
    = EvOutput (StartFailed (Error "cancelled")) :: rest.
Proof.
  apply (install_and_start_log_failures quietEnv "https://gitpod.io"
           (mkResponse true 200 "OK" (Some "v1") "https://gitpod.io/bin")
           cachedInstallation 0 (cancelToken 0 emptyWorld) (Error "cancelled")
           (snd (startLocalApp quietEnv "https://gitpod.io" cachedInstallation 0
                   (cancelToken 0 emptyWorld)))).
  vm_compute; reflexivity.
Defined.

(** X11: a token cancelled while the log stream opens does not keep the
    process from being spawned: [startLocalApp] spawns the local app all
    the same and then throws [Error('cancelled')], so that the process
    runs on without a config. *)
Theorem startLocalApp_spawns_when_cancelled_late env host
    (i : LocalAppInstallation) (token : nat) (w : World) (file : string) :
  let port := listenPort env (ticks w) in
  let w1 := afterStartSetup env w in
  let w2 := afterLogOpen env host file port i w1 in
  tmpFileResult env (ticks w) = inr file ->
  token ∉ cancelledTokens w1 ->
  openLogResult env (ticks w1) = None ->
  token ∈ cancelledTokens w2 ->
  startLocalApp env host i token w =
    (Thrown (Error "cancelled"),
     addEvent (EvOutput (StartFailed (Error "cancelled")))
       (addEvent (EvSpawn (path i) host file port) w2)).
Proof.
  intros port w1 w2 Htmp Hnot Hopen Hcancelled.
  unfold startLocalApp, tryCatch, bind at 1 2 3, await.
  cbn [emit modify]. change (ticks (addEvent _ (addEvent _ w))) with (ticks w).
  rewrite Htmp. fold (afterStartSetup env w). fold w1. cbv zeta. cbn [fst snd].
  unfold bind at 1, throwIfCancelled, bind at 1, isCancellationRequested.
  rewrite bool_decide_eq_false_2 by exact Hnot. cbn [ret].
  unfold bind at 1 2. cbn [appendLine emit modify].
  unfold spawnLocalApp, bind at 1 2, awaitVoid, await. cbn [emit modify].
  change (ticks (addEvent _ (addEvent _ w1))) with (ticks w1).
  rewrite Hopen. fold port. fold (afterLogOpen env host file port i w1). fold w2.
  unfold bind at 1, isCancellationRequested.
  rewrite bool_decide_eq_true_2 by exact Hcancelled.
  reflexivity.
Qed.

Lemma startLocalApp_spawns_when_cancelled_late_witness :
  fst (startLocalApp lockLostEnv "https://gitpod.io" cachedInstallation 0 heldWorld)
    = Thrown (Error "cancelled") /\
  tally isSpawn
    (snd (startLocalApp lockLostEnv "https://gitpod.io" cachedInstallation 0 heldWorld))
  = 1%nat.
Proof.
  rewrite (startLocalApp_spawns_when_cancelled_late lockLostEnv "https://gitpod.io"
             cachedInstallation 0 heldWorld "/tmp/gitpod-0").
  - split; reflexivity.
  - reflexivity.
  - vm_compute. set_solver.
  - reflexivity.
  - vm_compute. set_solver.
Defined.

(** ** What [ensureLocalApp] does without a cached config *)

Lemma downloadSeen_cancelled env host token w :
  token ∈ cancelledTokens w ->
  exists e, downloadSeen env host token w = inl e /\
            (e = Error "cancelled" \/
             fetchResult env (ticks w) (downloadUriOf env host) = inl e).
Proof.
  intros Hc. unfold downloadSeen.
  destruct (fetchResult env (ticks w) (downloadUriOf env host)) as [e|r].
  - exists e. auto.
  - rewrite bool_decide_eq_true_2 by (apply afterFetch_cancelled; exact Hc).
    exists (Error "cancelled"). auto.
Qed.

Lemma checkExecutable_unusable env i token w :
  (forall inst, i = Some inst ->
     accessResult env (ticks w) (path inst) = false \/
     token ∈ cancelledTokens (afterAccess env i w)) ->
  checkExecutable env i token w = (Returned None, afterAccess env i w).
Proof.
  intros H. destruct i as [inst|]; [|reflexivity].
  unfold checkExecutable, tryCatch, bind at 1 2, await. cbn [emit modify afterAccess].
  change (ticks (addEvent _ w)) with (ticks w).
  destruct (accessResult env (ticks w) (path inst)) eqn:Hok; [|reflexivity].
  destruct (H inst eq_refl) as [Hf|Hc]; [congruence|].
  unfold bind, throwIfCancelled, bind, isCancellationRequested.
  cbn [afterAccess] in Hc. rewrite bool_decide_eq_true_2 by exact Hc. reflexivity.
Qed.

(** X12: with a token that is already cancelled and no running config in
    the store, [ensureLocalApp] throws, either "cancelled" or the error of
    the fetch; it has sent the fetch and looked at the file of an
    installation record, and nothing else: nothing is streamed, nothing
    spawned, the store is not written. *)
Theorem ensureLocalApp_cancelled_does_nothing env host configKey installationKey
    token (w : World) :
  let w1 := afterFetch env host w in
  let i := asInstallation (globalState w1 !! installationKey) in
  token ∈ cancelledTokens w ->
  asConfig (globalState w1 !! configKey) = None ->
  exists e,
    ensureLocalApp env host configKey installationKey token w
      = (Thrown e, afterAccess env i w1) /\
    (e = Error "cancelled" \/
     fetchResult env (ticks w) (downloadUriOf env host) = inl e) /\
    events (afterAccess env i w1) =
      (match i with Some inst => [EvAccess (path inst)] | None => [] end ++
       [EvFetch (downloadUriOf env host);
        EvOutput (FetchingFrom (downloadUriOf env host))] ++ events w)%list.
Proof.
  intros w1 i Hc Hnone.
  destruct (downloadSeen_cancelled env host token w Hc) as (e & Hd & He).
  exists e. split; [|split; [exact He|]].
  - rewrite ensureLocalApp_run. cbv zeta. fold w1 i. rewrite Hd, Hnone.
    rewrite dropOutdated_current by (intros; reflexivity). cbn [fst snd].
    unfold provision, bind at 1.
    rewrite checkExecutable_unusable.
    + reflexivity.
    + intros inst Hi. right. rewrite Hi. cbn [afterAccess].
      apply resume_cancelled. cbn. apply afterFetch_cancelled. exact Hc.
  - destruct i as [inst|]; cbn [afterAccess]; rewrite ?resume_events;
      cbn [addEvent events]; unfold w1; rewrite afterFetch_events; reflexivity.
Qed.

Lemma ensureLocalApp_cancelled_does_nothing_witness :
  fst (ensureLocalApp quietEnv "https://gitpod.io" "config/gitpod.io"
         "installation/gitpod.io" 0 (cancelToken 0 emptyWorld))
  = Thrown (Error "cancelled").
Proof.
  destruct (ensureLocalApp_cancelled_does_nothing quietEnv "https://gitpod.io"
              "config/gitpod.io" "installation/gitpod.io" 0 (cancelToken 0 emptyWorld))
    as (e & Hrun & [He|He] & _).
  - vm_compute. set_solver.
  - reflexivity.
  - rewrite Hrun, He. reflexivity.
  - discriminate He.
Defined.

(** X13: a failed download is thrown only when it is needed.  With no
    running config in the store and no installation that can be used
    (none recorded, or its file not executable), [ensureLocalApp] throws
    the error kept from the fetch, which for a response that is not [ok]
    is "unexpected download response <statusText> (<status>)". *)
Theorem ensureLocalApp_throws_kept_download_error env host configKey installationKey
    token (w : World) (e : JsError) :
  let w1 := afterFetch env host w in
  let i := asInstallation (globalState w1 !! installationKey) in
  asConfig (globalState w1 !! configKey) = None ->
  downloadSeen env host token w = inl e ->
  (forall inst, i = Some inst -> accessResult env (S (ticks w)) (path inst) = false) ->
  ensureLocalApp env host configKey installationKey token w
    = (Thrown e, afterAccess env i w1) /\
  (forall r,
     fetchResult env (ticks w) (downloadUriOf env host) = inr r ->
     ok r = false ->
     token ∉ cancelledTokens w1 ->
     e = Error ("unexpected download response " +:+ statusText r +:+ " (" +:+
                decimalZ (status r) +:+ ")")).
Proof.
  intros w1 i Hnone Hd Hbad. split.
  - rewrite ensureLocalApp_run. cbv zeta. fold w1 i. rewrite Hd, Hnone.
    rewrite dropOutdated_current by (intros; reflexivity). cbn [fst snd].
    unfold provision, bind at 1.
    rewrite checkExecutable_unusable.
    + reflexivity.
    + intros inst Hi. left. unfold w1. rewrite afterFetch_ticks. apply Hbad. exact Hi.
  - intros r Hr Hok Hnot. unfold downloadSeen in Hd. rewrite Hr in Hd.
    fold w1 in Hd. rewrite bool_decide_eq_false_2 in Hd by exact Hnot.
    rewrite Hok in Hd. congruence.
Qed.

Lemma ensureLocalApp_throws_kept_download_error_witness :
  fst (ensureLocalApp offlineEnv "https://gitpod.io" "config/gitpod.io"
         "installation/gitpod.io" 0 emptyWorld)
  = Thrown (Error "request failed: ENOTFOUND").
Proof.
  destruct (ensureLocalApp_throws_kept_download_error offlineEnv "https://gitpod.io"
              "config/gitpod.io" "installation/gitpod.io" 0 emptyWorld
              (Error "request failed: ENOTFOUND")) as [Hrun _].
  - reflexivity.
  - reflexivity.
  - intros inst Hi. discriminate Hi.
  - rewrite Hrun. reflexivity.
Defined.

(** ** Invariants kept by the building blocks *)

Section Invariants.

Variable env : Env.
Variable I : World -> Prop.
Variable writable : string -> Prop.

Hypothesis inv_event : forall e w, I w -> I (addEvent e w).
Hypothesis inv_advance : forall ms w, I w -> I (advance ms w).
Hypothesis inv_resume : forall w, I w -> I (resume env w).
Hypothesis inv_update : forall k v w,
  writable k -> I w ->
  I (setStore (match v with
               | Some x => <[k := x]> (globalState w)
               | None => delete k (globalState w)
               end) w).

Lemma preserves_ret A (a : A) : Preserves I (ret a).
Proof. intros w H. exact H. Qed.

Lemma preserves_throw A e : Preserves I (@throw A e).
Proof. intros w H. exact H. Qed.

Lemma preserves_diverge A : Preserves I (@diverge A).
Proof. intros w H. exact H. Qed.

Lemma preserves_read A (g : World -> Outcome A) : Preserves I (fun w => (g w, w)).
Proof. intros w H. exact H. Qed.

Lemma preserves_bind A B (m : M A) (k : A -> M B) :
  Preserves I m -> (forall a, Preserves I (k a)) -> Preserves I (bind m k).
Proof.
  intros Hm Hk w H. unfold bind. specialize (Hm w H).
  destruct (m w) as [[a|e|] w']; cbn [snd] in *; [|exact Hm..].
  apply Hk. exact Hm.
Qed.

Lemma preserves_tryCatch A (m : M A) (h : JsError -> M A) :
  Preserves I m -> (forall e, Preserves I (h e)) -> Preserves I (tryCatch m h).
Proof.
  intros Hm Hh w H. unfold tryCatch. specialize (Hm w H).
  destruct (m w) as [[a|e|] w']; cbn [snd] in *; [exact Hm| |exact Hm].
  apply Hh. exact Hm.
Qed.

Lemma preserves_tryFinally A (m : M A) (fin : M unit) :
  Preserves I m -> Preserves I fin -> Preserves I (tryFinally m fin).
Proof.
  intros Hm Hfin w H. unfold tryFinally. specialize (Hm w H).
  destruct (m w) as [[a|e|] w']; cbn [snd] in *; [| |exact Hm];
    specialize (Hfin w' Hm); destruct (fin w') as [[[]|e'|] w'']; exact Hfin.
Qed.

Lemma preserves_emit e : Preserves I (emit e).
Proof. intros w H. apply inv_event. exact H. Qed.

Lemma preserves_appendLine l : Preserves I (appendLine l).
Proof. apply preserves_emit. Qed.

Lemma preserves_suspend : Preserves I (suspend env).
Proof. intros w H. apply inv_resume. exact H. Qed.

Lemma preserves_sleep ms : Preserves I (sleep env ms).
Proof.
  unfold sleep. apply preserves_bind; [apply preserves_emit|intros _].
  apply preserves_bind; [|intros _; apply preserves_suspend].
  intros w H. apply inv_advance. exact H.
Qed.

Lemma preserves_stateUpdate k v : writable k -> Preserves I (stateUpdate k v).
Proof. intros Hk w H. apply inv_event, inv_update; assumption. Qed.

Lemma preserves_throwIfCancelled token : Preserves I (throwIfCancelled token).
Proof.
  unfold throwIfCancelled. apply preserves_bind; [apply preserves_read|].
  intros []; [apply preserves_throw|apply preserves_ret].
Qed.

Lemma preserves_await A (result : nat -> JsError + A) : Preserves I (await env result).
Proof.
  intros w H. unfold await. destruct (result (ticks w)); apply inv_resume; exact H.
Qed.

Lemma preserves_awaitVoid result : Preserves I (awaitVoid env result).
Proof. apply preserves_await. Qed.

Lemma preserves_processKill p s : Preserves I (processKill env p s).
Proof.
  unfold processKill. apply preserves_bind; [apply preserves_emit|intros _].
  intros w H. destruct (killResult env (ticks w) p s); exact H.
Qed.

End Invariants.

(** Breaks a goal [Preserves I m] down along the structure of [m]; the
    keys written are left to [side]. *)
Ltac preserves_with env He Ha Hr Hu side :=
  repeat match goal with
    | |- Preserves _ (ret _) => apply preserves_ret
    | |- Preserves _ (throw _) => apply preserves_throw
    | |- Preserves _ diverge => apply preserves_diverge
    | |- Preserves _ (suspend _) => apply (preserves_suspend env _ Hr)
    | |- Preserves _ (throwIfCancelled _) => apply preserves_throwIfCancelled
    | |- Preserves _ (isCancellationRequested _) => apply preserves_read
    | |- Preserves _ (stateGet _) => apply preserves_read
    | |- Preserves _ performanceNow => apply preserves_read
    | |- Preserves _ (await _ _) => apply (preserves_await env _ Hr)
    | |- Preserves _ (awaitVoid _ _) => apply (preserves_awaitVoid env _ Hr)
    | |- Preserves _ (fun w => (_, w)) => apply preserves_read
    | |- Preserves _ (emit _) => apply (preserves_emit _ He)
    | |- Preserves _ (appendLine _) => apply (preserves_appendLine _ He)
    | |- Preserves _ (sleep _ _) => apply (preserves_sleep env _ He Ha Hr)
    | |- Preserves _ (modify (advance _)) => intros ? ?; apply Ha; assumption
    | |- Preserves _ (stateUpdate _ _) =>
        apply (preserves_stateUpdate _ _ He Hu); side
    | |- Preserves _ (processKill _ _ _) => apply (preserves_processKill env _ He)
    | |- Preserves _ (bind _ _) => apply preserves_bind; [|intros ?]
    | |- Preserves _ (tryCatch _ _) => apply preserves_tryCatch; [|intros ?]
    | |- Preserves _ (tryFinally _ _) => apply preserves_tryFinally
    | |- Preserves _ (match ?x with _ => _ end) => destruct x
    | |- Preserves _ (let _ := _ in _) => cbv zeta
    end.

Section ProgramInvariants.

Variable env : Env.
Variable I : World -> Prop.
Variable writable : string -> Prop.

Hypothesis inv_event : forall e w, I w -> I (addEvent e w).
Hypothesis inv_advance : forall ms w, I w -> I (advance ms w).
Hypothesis inv_resume : forall w, I w -> I (resume env w).
Hypothesis inv_update : forall k v w,
  writable k -> I w ->
  I (setStore (match v with
               | Some x => <[k := x]> (globalState w)
               | None => delete k (globalState w)
               end) w).

Lemma preserves_ensureLocalApp host configKey installationKey token :
  writable configKey -> writable installationKey ->
  Preserves I (ensureLocalApp env host configKey installationKey token).
Proof.
  intros Hc Hi.
  unfold ensureLocalApp, fetchDownload, downloadLocalApp, dropOutdated, provision,
    checkExecutable, installIfMissing, installLocalApp, startLocalApp, spawnLocalApp.
  preserves_with env inv_event inv_advance inv_resume inv_update ltac:(assumption).
Qed.

Lemma preserves_acquireLock fuel lockKey v timeout :
  writable lockKey -> Preserves I (acquireLock env fuel lockKey v timeout).
Proof.
  intros Hk. induction fuel as [|fuel IH]; [apply preserves_diverge|].
  cbn [acquireLock]. unfold pollLock, claimIfFree.
  preserves_with env inv_event inv_advance inv_resume inv_update ltac:(assumption).
  exact IH.
Qed.

Lemma preserves_forgetConfig configKey config :
  writable configKey -> Preserves I (forgetConfig env configKey config).
Proof.
  intros Hk. unfold forgetConfig.
  preserves_with env inv_event inv_advance inv_resume inv_update ltac:(assumption).
Qed.

Hypothesis inv_count : forall w, I w -> I (snd (nextLockCount w)).
Hypothesis inv_token : forall w, I w -> I (snd (newTokenSource w)).
Hypothesis inv_watch : forall t w, I w -> I (setWatch t w).

Lemma preserves_withLock T fuel lockName (op : nat -> M T) timeout :
  writable (lockPrefix +:+ lockName) ->
  (forall token, Preserves I (op token)) ->
  Preserves I (withLock env fuel lockName op timeout).
Proof.
  intros Hk Hop. unfold withLock, releaseLock.
  apply preserves_bind; [apply (preserves_appendLine _ inv_event)|intros _].
  cbv zeta. apply preserves_bind; [exact inv_count|intros n].
  apply preserves_bind; [apply preserves_acquireLock; exact Hk|intros _].
  apply preserves_bind; [apply (preserves_appendLine _ inv_event)|intros _].
  apply preserves_bind; [exact inv_token|intros token].
  apply preserves_bind; [intros w H; apply inv_watch; exact H|intros _].
  apply preserves_tryFinally; [apply Hop|].
  apply preserves_bind; [intros w H; apply inv_watch; exact H|intros _].
  preserves_with env inv_event inv_advance inv_resume inv_update ltac:(assumption).
Qed.

Lemma preserves_attempt T fuel host gitpodAuthority configKey installationKey
    (op : Operation T) :
  writable (lockPrefix +:+ gitpodAuthority) ->
  writable configKey -> writable installationKey ->
  Preserves I (attempt env fuel host gitpodAuthority configKey installationKey op).
Proof.
  intros Hl Hc Hi. unfold attempt, probe.
  apply preserves_bind.
  { apply preserves_withLock; [exact Hl|].
    intros token. apply preserves_ensureLocalApp; assumption. }
  intros config. cbv zeta.
  apply preserves_tryCatch.
  { preserves_with env inv_event inv_advance inv_resume inv_update ltac:(assumption). }
  intros e. apply preserves_bind.
  { preserves_with env inv_event inv_advance inv_resume inv_update ltac:(assumption). }
  intros [e2|].
  - repeat (apply preserves_bind; [apply (preserves_appendLine _ inv_event)|intros _]).
    apply preserves_bind; [|intros _; apply preserves_ret].
    apply preserves_withLock; [exact Hl|].
    intros _. apply preserves_forgetConfig. exact Hc.
  - preserves_with env inv_event inv_advance inv_resume inv_update ltac:(assumption).
Qed.

Lemma preserves_withLocalAppLoop T rounds fuel host gitpodAuthority configKey
    installationKey (op : Operation T) :
  writable (lockPrefix +:+ gitpodAuthority) ->
  writable configKey -> writable installationKey ->
  forall ra,
    Preserves I (withLocalAppLoop env rounds fuel host gitpodAuthority configKey
                   installationKey op ra).
Proof.
  intros Hl Hc Hi. induction rounds as [|rounds IH]; intros ra; cbn [withLocalAppLoop].
  - destruct (Nat.ltb ra 5); [apply preserves_diverge|apply preserves_throw].
  - destruct (Nat.ltb ra 5); [|apply preserves_throw].
    apply preserves_bind; [apply preserves_attempt; assumption|].
    intros [r| |]; [apply preserves_ret|apply IH|apply IH].
Qed.

End ProgramInvariants.

(** ** What [withLocalApp] and [ensureLocalApp] leave alone *)

(** X14: a call of [withLocalApp] for a host writes three keys of the
    store, the lock, the config and the installation of that host, and
    no other: a key that the environment leaves as it is has after the
    call the binding it had before, whatever the call ran into. *)
Theorem withLocalApp_writes_only_its_keys env T rounds fuel host (op : Operation T)
    (w : World) (k : string) :
  k <> lockPrefix +:+ uriAuthority env host ->
  k <> "config/" +:+ uriAuthority env host ->
  k <> "installation/" +:+ uriAuthority env host ->
  leavesAlone env k ->
  globalState (snd (withLocalApp env rounds fuel host op w)) !! k = globalState w !! k.
Proof.
  intros Hl Hc Hi Halone. unfold withLocalApp.
  apply (preserves_withLocalAppLoop env
           (fun w' => globalState w' !! k = globalState w !! k)
           (fun k' => k' <> k)).
  - intros e w' H. exact H.
  - intros ms w' H. exact H.
  - intros w' H. rewrite resume_store, Halone. exact H.
  - intros k' v w' Hk' H. cbn [setStore globalState].
    destruct v; [rewrite lookup_insert_ne|rewrite lookup_delete_ne]; assumption.
  - intros w' H. exact H.
  - intros w' H. exact H.
  - intros t w' H. exact H.
  - congruence.
  - congruence.
  - congruence.
  - reflexivity.
Qed.

Lemma withLocalApp_writes_only_its_keys_witness :
  globalState (snd (withLocalApp deadEnv 5 1 "https://gitpod.io" failingOp
                      abandonedWorld)) !! "lock/example.com"
  = globalState abandonedWorld !! "lock/example.com".
Proof.
  apply (withLocalApp_writes_only_its_keys deadEnv string 5 1 "https://gitpod.io"
           failingOp abandonedWorld "lock/example.com").
  - discriminate.
  - discriminate.
  - discriminate.
  - intros n s. reflexivity.
Defined.

(** X15: cancellation comes from the loss of the lock alone.  While the
    environment leaves the lock record in place, [ensureLocalApp] run
    under that lock ends with the record still in the store and its
    token not cancelled, whatever else happens to it. *)
Theorem ensureLocalApp_uncancelled_while_lock_kept env host configKey installationKey
    (lockKey v : string) (token : nat) (w : World) :
  leavesAlone env lockKey ->
  configKey <> lockKey ->
  installationKey <> lockKey ->
  holdsUncancelled lockKey v token w ->
  holdsUncancelled lockKey v token
    (snd (ensureLocalApp env host configKey installationKey token w)).
Proof.
  intros Halone Hc Hi.
  apply (preserves_ensureLocalApp env (holdsUncancelled lockKey v token)
           (fun k => k <> lockKey)); try assumption.
  - intros e w' H. exact H.
  - intros ms w' H. exact H.
  - intros w' (Hw & Hs & Ht). unfold holdsUncancelled.
    rewrite resume_watch, resume_store, Halone.
    split; [exact Hw|]. split; [exact Hs|].
    unfold resume, watchTick. cbn [watch globalState].
    destruct (timerRuns env (ticks w')); [|exact Ht].
    rewrite Hw, Halone. rewrite bool_decide_eq_true_2 by exact Hs. exact Ht.
  - intros k x w' Hk (Hw & Hs & Ht). unfold holdsUncancelled.
    cbn [setStore watch globalState cancelledTokens].
    split; [exact Hw|]. split; [|exact Ht].
    destruct x; [rewrite lookup_insert_ne|rewrite lookup_delete_ne]; assumption.
Qed.

Lemma ensureLocalApp_uncancelled_while_lock_kept_witness :
  0%nat ∉ cancelledTokens
    (snd (ensureLocalApp quietEnv "https://gitpod.io" "config/gitpod.io"
            "installation/gitpod.io" 0 heldWorld)).
Proof.
  apply (ensureLocalApp_uncancelled_while_lock_kept quietEnv "https://gitpod.io"
           "config/gitpod.io" "installation/gitpod.io" "lock/gitpod.io" "0c1d/0" 0
           heldWorld).
  - intros n s. reflexivity.
  - discriminate.
  - discriminate.
  - split; [reflexivity|]. split; [reflexivity|]. vm_compute. set_solver.
Defined.

(** ** The config that [ensureLocalApp] returns *)

Lemma startLocalApp_host env host i token w c w' :
  startLocalApp env host i token w = (Returned c, w') -> gitpodHost c = host.
Proof.
  unfold startLocalApp, spawnLocalApp, tryCatch, bind, await, awaitVoid, await,
    throwIfCancelled, bind, isCancellationRequested, appendLine, emit, modify, ret,
    throw, suspend, modify.
  cbv zeta.
  repeat match goal with
    | |- context [match ?x with _ => _ end] =>
        match x with
        | context [match _ with _ => _ end] => fail 1
        | _ => destruct x eqn:?
        end
    end;
    intros H; try discriminate H; injection H as <- <-; reflexivity.
Qed.

Lemma dropOutdated_cases env d c i w :
  dropOutdated env d c i w = (Returned (c, i), w) \/
  exists w2, dropOutdated env d c i w = (Returned (None, None), w2).
Proof.
  unfold dropOutdated. destruct i as [inst|]; [|left; reflexivity].
  destruct (isOutdated d inst); [|left; reflexivity].
  right. unfold bind at 1 2. cbn [appendLine emit modify].
  destruct c as [c|]; [|eexists; reflexivity].
  unfold tryCatch, processKill, bind at 1. cbn [emit modify].
  match goal with
  | |- context [killResult env ?n ?p ?s] => destruct (killResult env n p s)
  end; eexists; reflexivity.
Qed.

Lemma provision_returns env d i host configKey installationKey token w c w' :
  provision env d i host configKey installationKey token w = (Returned c, w') ->
  gitpodHost c = host /\
  (token ∉ cancelledTokens w') /\
  exists w0,
    events w' = EvUpdate configKey (Some (SConfig c)) :: events w0 /\
    globalState w' = interfere env (ticks w0) (<[configKey := SConfig c]> (globalState w0)).
Proof.
  unfold provision, bind at 1.
  destruct (checkExecutable env i token w) as [[checked|e|] w1]; try discriminate.
  unfold bind at 1.
  destruct (installIfMissing env d checked installationKey token w1) as [[inst|e|] w2];
    try discriminate.
  unfold bind at 1.
  destruct (startLocalApp env host inst token w2) as [[c0|e|] w3] eqn:Hstart;
    try discriminate.
  unfold bind, stateUpdate, suspend, modify, throwIfCancelled, bind,
    isCancellationRequested, ret, throw.
  case_bool_decide as Hcancel; intros H; [discriminate H|].
  injection H as <- <-.
  split; [exact (startLocalApp_host env host inst token w2 c0 w3 Hstart)|].
  split; [exact Hcancel|].
  exists w3. rewrite resume_events, resume_store. split; reflexivity.
Qed.

(** X16: a config that [ensureLocalApp] returns is either the one it found
    in the store, returned without anything written, or a config for the
    host asked for that it has just written under the config key: that
    write is then the last thing it did to the store, and its token is
    not cancelled. *)
Theorem ensureLocalApp_returns_stored_config env host configKey installationKey
    token (w : World) (c : LocalAppConfig) (w' : World) :
  ensureLocalApp env host configKey installationKey token w = (Returned c, w') ->
  (asConfig (globalState (afterFetch env host w) !! configKey) = Some c /\
   w' = afterFetch env host w) \/
  (gitpodHost c = host /\
   (token ∉ cancelledTokens w') /\
   exists w0,
     events w' = EvUpdate configKey (Some (SConfig c)) :: events w0 /\
     globalState w' = interfere env (ticks w0)
                        (<[configKey := SConfig c]> (globalState w0))).
Proof.
  rewrite ensureLocalApp_run. cbv zeta.
  destruct (dropOutdated_cases env (downloadSeen env host token w)
              (asConfig (globalState (afterFetch env host w) !! configKey))
              (asInstallation (globalState (afterFetch env host w) !! installationKey))
              (afterFetch env host w)) as [Hkeep|[w2 Hdrop]].
  - rewrite Hkeep. cbn [fst snd].
    destruct (asConfig (globalState (afterFetch env host w) !! configKey)) as [c0|].
    + intros H. injection H as <- <-. left. split; reflexivity.
    + intros H. right. exact (provision_returns _ _ _ _ _ _ _ _ _ _ H).
  - rewrite Hdrop. cbn [fst snd].
    intros H. right. exact (provision_returns _ _ _ _ _ _ _ _ _ _ H).
Qed.

Lemma ensureLocalApp_returns_stored_config_witness :
  (asConfig (globalState (afterFetch upgradedEnv "https://gitpod.io" provisionedWorld)
               !! "config/gitpod.io")
   = Some (mkConfig "https://gitpod.io" "/tmp/gitpod-5" 40005 1007 "/tmp/gitpod-1.log") /\
   snd (ensureLocalApp upgradedEnv "https://gitpod.io" "config/gitpod.io"
          "installation/gitpod.io" 0 provisionedWorld)
   = afterFetch upgradedEnv "https://gitpod.io" provisionedWorld) \/
  (gitpodHost (mkConfig "https://gitpod.io" "/tmp/gitpod-5" 40005 1007
                 "/tmp/gitpod-1.log") = "https://gitpod.io" /\
   (0%nat ∉ cancelledTokens
     (snd (ensureLocalApp upgradedEnv "https://gitpod.io" "config/gitpod.io"
             "installation/gitpod.io" 0 provisionedWorld))) /\
   exists w0,
     events (snd (ensureLocalApp upgradedEnv "https://gitpod.io" "config/gitpod.io"
                    "installation/gitpod.io" 0 provisionedWorld))
     = EvUpdate "config/gitpod.io"
         (Some (SConfig (mkConfig "https://gitpod.io" "/tmp/gitpod-5" 40005 1007
                           "/tmp/gitpod-1.log"))) :: events w0 /\
     globalState (snd (ensureLocalApp upgradedEnv "https://gitpod.io"
                         "config/gitpod.io" "installation/gitpod.io" 0
                         provisionedWorld))
     = interfere upgradedEnv (ticks w0)
         (<["config/gitpod.io" :=
              SConfig (mkConfig "https://gitpod.io" "/tmp/gitpod-5" 40005 1007
                         "/tmp/gitpod-1.log")]> (globalState w0))).
Proof.
  apply (ensureLocalApp_returns_stored_config upgradedEnv "https://gitpod.io"
           "config/gitpod.io" "installation/gitpod.io" 0 provisionedWorld).
  vm_compute; reflexivity.
Defined.
